(** * A shallow embedding of the [pl] Prolog engine (package [syntax] and
      the type-test builtins of package [builtin]).

    The Go program works on a garbage-collected heap: [*Variable] cells are
    mutated by unification, [*Goal] nodes are mutated when a rule body is
    copied and when a body is spliced onto the pending goals.  The embedding
    keeps both kinds of cells in an explicit heap indexed by address and
    threads it through a small state-and-failure monad.  Loops and
    recursions that follow heap pointers take a fuel argument. *)

From Stdlib Require Import ZArith String List Bool Lia.
From Stdlib Require Import Floats.SpecFloat.
From stdpp Require Import base option list gmap strings.

Local Open Scope Z_scope.
Local Open Scope nat_scope.

(** ** Terms (term.go) *)

(** Address of a [Variable] cell: variables are identified by address. *)
Definition var := nat.
(** Address of a [Goal] node. *)
Definition goalptr := nat.

(** The implementations of the [Term] interface.  A [*Compound] is never
    written to after it is built and never compared by address, so it is
    embedded by value. *)
#[warnings="-register-all"]
Inductive Term : Type :=
| Atom (a : string)
| Integer (i : Z)
| Float64 (f : spec_float)
| Var (v : var)
| Compound (functor : string) (args : list Term)
| AnonVariable
| Cut.

Definition EmptyList : Term := Atom "[]".

(** [type Variable struct { name string; value Term }], [value = nil]
    meaning unset. *)
Record VariableCell : Type := mkVariable {
  name : string;
  value : option Term
}.

(** [type Goal struct { head Term; tail *Goal }]. *)
Record Goal : Type := mkGoal {
  head : Term;
  tail : option goalptr
}.

(** The heap: the cell at address [i] is the [i]-th element. *)
Record Heap : Type := mkHeap {
  hvars : list VariableCell;
  hgoals : list Goal
}.

Definition emptyHeap : Heap := mkHeap [] [].

(** ** Outcomes and the heap monad *)

Inductive outcome (A : Type) : Type :=
| Done (a : A)
| Panic (msg : string)
| Spin.
Arguments Done {A} a.
Arguments Panic {A} msg.
Arguments Spin {A}.

Definition M (A : Type) : Type := Heap -> outcome (A * Heap).

Definition ret {A} (a : A) : M A := fun h => Done (a, h).
Definition panic {A} (msg : string) : M A := fun _ => Panic msg.
Definition spin {A} : M A := fun _ => Spin.
Definition bind {A B} (m : M A) (k : A -> M B) : M B :=
  fun h => match m h with
           | Done (a, h') => k a h'
           | Panic msg => Panic msg
           | Spin => Spin
           end.

Declare Scope heap_scope.
Delimit Scope heap_scope with heap.
Notation "x <- m ;; k" := (bind m (fun x => k))
  (at level 100, m at next level, right associativity) : heap_scope.
Notation "m ;;; k" := (bind m (fun _ => k))
  (at level 100, right associativity) : heap_scope.
Local Open Scope heap_scope.

Definition getHeap : M Heap := fun h => Done (h, h).

(** Reading through a pointer.  Go has no dangling pointers; an address
    outside the heap only arises from an ill-formed model state. *)
Definition getVar (v : var) : M VariableCell :=
  fun h => match hvars h !! v with
           | Some c => Done (c, h)
           | None => Panic "invalid memory address"
           end.

Definition getGoal (g : goalptr) : M Goal :=
  fun h => match hgoals h !! g with
           | Some n => Done (n, h)
           | None => Panic "invalid memory address"
           end.

(** [v.value = t] *)
Definition setValue (v : var) (t : option Term) : M unit :=
  fun h => Done (tt, mkHeap (alter (fun c => mkVariable (name c) t) v (hvars h))
                            (hgoals h)).

(** [g.tail = t] *)
Definition setTail (g : goalptr) (t : option goalptr) : M unit :=
  fun h => Done (tt, mkHeap (hvars h)
                            (alter (fun n => mkGoal (head n) t) g (hgoals h))).

(** [&Variable{name, value}] *)
Definition allocVar (c : VariableCell) : M var :=
  fun h => Done (length (hvars h), mkHeap (hvars h ++ [c]) (hgoals h)).

(** [&Goal{head, tail}] *)
Definition allocGoal (n : Goal) : M goalptr :=
  fun h => Done (length (hgoals h), mkHeap (hvars h) (hgoals h ++ [n])).

Definition NewVariable (nm : string) : M var := allocVar (mkVariable nm None).

(** [l[i]] on a slice. *)
Definition index (l : list Term) (i : nat) : M Term :=
  match l !! i with
  | Some t => ret t
  | None => panic "index out of range"
  end.

(** [for i, arg := range l { if !body(i, arg) { return false } }; return true] *)
Fixpoint rangeAll (body : nat -> Term -> M bool) (i : nat) (l : list Term)
  : M bool :=
  match l with
  | [] => ret true
  | arg :: l' =>
      b <- body i arg;;
      if b then rangeAll body (S i) l' else ret false
  end.

(** ** Unification *)

(** [Float64(i)]: conversion of an integer to binary64, round to nearest. *)
Definition Float64_of_int (i : Z) : spec_float :=
  binary_normalize 53 1024 i 0 false.

(** [t1.Unify(t2)], dispatching on the dynamic type of the receiver. *)
Fixpoint Unify (fuel : nat) (t1 t2 : Term) {struct fuel} : M bool :=
  match fuel with
  | O => spin
  | S fuel =>
      match t1 with
      | AnonVariable => ret true
      | Cut => ret true
      | Atom a =>
          match t2 with
          | Var _ => Unify fuel t2 t1
          | Atom b => ret (String.eqb b a)
          | _ => ret false
          end
      | Integer i =>
          match t2 with
          | Var _ => Unify fuel t2 t1
          | Integer j => ret (Z.eqb j i)
          | Float64 f => ret (SFeqb (Float64_of_int i) f)
          | _ => ret false
          end
      | Float64 f =>
          match t2 with
          | Integer j => ret (SFeqb f (Float64_of_int j))
          | Float64 g => ret (SFeqb g f)
          | Var _ => Unify fuel t2 t1
          | _ => ret false
          end
      | Var v =>
          match t2 with
          | Var v2 =>
              if Nat.eqb v v2 then ret true
              else
                c <- getVar v;;
                match value c with
                | None => setValue v (Some (Var v2));;; ret true
                | Some t =>
                    c2 <- getVar v2;;
                    match value c2 with
                    | None => setValue v2 (Some (Var v));;; ret true
                    | Some t' => Unify fuel t t'
                    end
                end
          | _ =>
              c <- getVar v;;
              match value c with
              | None => setValue v (Some t2);;; ret true
              | Some t => Unify fuel t t2
              end
          end
      | Compound f args =>
          match t2 with
          | Var _ => Unify fuel t2 t1
          | Compound g args2 =>
              if negb (String.eqb f g)
                 || negb (Nat.eqb (length args) (length args2))
              then ret false
              else rangeAll (fun i arg => ci <- index args i;;
                                          Unify fuel ci arg) 0 args2
          | _ => ret false
          end
      end
  end.

(** [v.Value()]: follow [value] while it is a variable. *)
Fixpoint derefLoop (fuel : nat) (t : option Term) : M (option Term) :=
  match fuel with
  | O => spin
  | S fuel =>
      match t with
      | Some (Var v) => c <- getVar v;; derefLoop fuel (value c)
      | _ => ret t
      end
  end.

Definition Value (fuel : nat) (v : var) : M (option Term) :=
  c <- getVar v;; derefLoop fuel (value c).

(** [t.Callable()]: the compound to call, as (functor, args), or nil. *)
Fixpoint Callable (fuel : nat) (t : Term) : M (option (string * list Term)) :=
  match fuel with
  | O => spin
  | S fuel =>
      match t with
      | Compound f args => ret (Some (f, args))
      | Var v =>
          c <- getVar v;;
          match value c with
          | None => ret None
          | Some t' => Callable fuel t'
          end
      | _ => ret None
      end
  end.

(** ** Goals, rules and clauses *)

(** [NewGoal(head, tail...)]: builds the linked list front to back. *)
Fixpoint NewGoal_loop (c : goalptr) (ts : list Term) : M unit :=
  match ts with
  | [] => ret tt
  | t :: ts' =>
      g <- allocGoal (mkGoal t None);;
      setTail c (Some g);;;
      NewGoal_loop g ts'
  end.

Definition NewGoal (hd : Term) (tl : list Term) : M goalptr :=
  comp <- allocGoal (mkGoal hd None);;
  NewGoal_loop comp tl;;;
  ret comp.

(** [type Rule struct { functor Atom; args []Term; body *Goal }] *)
Record Rule : Type := mkRule {
  rfunctor : string;
  rargs : list Term;
  rbody : option goalptr
}.

Definition NewRule (f : string) (args : list Term) (body : option goalptr)
  : Rule := mkRule f args body.

(** The closure [cpTerm] of [Rule.cp]; the table [vars] it captures is
    passed in and returned. *)
Fixpoint cpTerm (t : Term) (vars : gmap var var) : M (Term * gmap var var) :=
  match t with
  | Var v =>
      match vars !! v with
      | Some newval => ret (Var newval, vars)
      | None =>
          c <- getVar v;;
          newval <- allocVar (mkVariable (name c) None);;
          ret (Var newval, <[v := newval]> vars)
      end
  | Compound f args =>
      r <- (fix cpTerms (terms : list Term) (vars : gmap var var)
              : M (list Term * gmap var var) :=
              match terms with
              | [] => ret ([], vars)
              | t :: terms' =>
                  r1 <- cpTerm t vars;;
                  r2 <- cpTerms terms' (snd r1);;
                  ret (fst r1 :: fst r2, snd r2)
              end) args vars;;
      ret (Compound f (fst r), snd r)
  | _ => ret (t, vars)
  end.

(** The closure [cpTerms] of [Rule.cp]. *)
Fixpoint cpTerms (terms : list Term) (vars : gmap var var)
  : M (list Term * gmap var var) :=
  match terms with
  | [] => ret ([], vars)
  | t :: terms' =>
      r1 <- cpTerm t vars;;
      r2 <- cpTerms terms' (snd r1);;
      ret (fst r1 :: fst r2, snd r2)
  end.

(** The loop of [Rule.cp] over the rest of the body:
[[
    for next != nil {
        last.tail = &Goal{cpTerm(next.head), nil}
        last, next = next, next.tail
    }
]]
    Note that [last] becomes [next], a node of the rule being copied. *)
Fixpoint cp_loop (fuel : nat) (last : goalptr) (next : option goalptr)
  (vars : gmap var var) : M unit :=
  match fuel with
  | O => spin
  | S fuel =>
      match next with
      | None => ret tt
      | Some nx =>
          n <- getGoal nx;;
          r <- cpTerm (head n) vars;;
          g <- allocGoal (mkGoal (fst r) None);;
          setTail last (Some g);;;
          n' <- getGoal nx;;
          cp_loop fuel nx (tail n') (snd r)
      end
  end.

(** [r.cp()] *)
Definition Rule_cp (fuel : nat) (r : Rule) : M Rule :=
  a <- cpTerms (rargs r) ∅;;
  match rbody r with
  | None => ret (mkRule (rfunctor r) (fst a) None)
  | Some b =>
      n <- getGoal b;;
      h <- cpTerm (head n) (snd a);;
      body <- allocGoal (mkGoal (fst h) None);;
      n' <- getGoal b;;
      cp_loop fuel body (tail n') (snd h);;;
      ret (mkRule (rfunctor r) (fst a) (Some body))
  end.

(** [r.Call(args)] *)
Definition Rule_Call (fuel : nat) (r : Rule) (args : list Term)
  : M (option goalptr * bool) :=
  if negb (Nat.eqb (length args) (length (rargs r))) then ret (None, false)
  else
    ruleCP <- Rule_cp fuel r;;
    ok <- rangeAll (fun i arg => pi <- index (rargs ruleCP) i;;
                                 Unify fuel arg pi) 0 args;;
    if ok then ret (rbody ruleCP, true) else ret (None, false).

(** [c.Call(args)] for a [*Compound] used as a fact. *)
Definition Compound_Call (fuel : nat) (cargs : list Term) (args : list Term)
  : M (option goalptr * bool) :=
  if negb (Nat.eqb (length cargs) (length args)) then ret (None, false)
  else
    ok <- rangeAll (fun i arg => ci <- index cargs i;;
                                 Unify fuel arg ci) 0 args;;
    if ok then ret (None, true) else ret (None, false).

(** [type builtin struct { name string; nArgs int; call func(...) }]
    (builtin.go) *)
Record builtin : Type := mkBuiltin {
  bname : string;
  nArgs : Z;
  call : list Term -> M (option goalptr * bool)
}.

(** The implementations of the [Clause] interface. *)
Inductive Clause : Type :=
| Fact (functor : string) (args : list Term)
| RuleClause (r : Rule)
| Builtin (b : builtin).

Definition sig : Type := string * Z.

Definition Signature (c : Clause) : sig :=
  match c with
  | Fact f args => (f, Z.of_nat (length args))
  | RuleClause r => (rfunctor r, Z.of_nat (length (rargs r)))
  | Builtin b => (bname b, nArgs b)
  end.

Definition Call (fuel : nat) (c : Clause) (args : list Term)
  : M (option goalptr * bool) :=
  match c with
  | Fact _ cargs => Compound_Call fuel cargs args
  | RuleClause r => Rule_Call fuel r args
  | Builtin b => call b args
  end.

(** ** The type-test builtins (type.go) *)

Definition isVariable (t : Term) : bool :=
  match t with Var _ => true | _ => false end.

Definition Var1 : builtin :=
  mkBuiltin "var" 1
    (fun args =>
       if Nat.eqb (length args) 1
       then a <- index args 1;; ret (None, isVariable a)
       else ret (None, false)).

Definition Nonvar1 : builtin :=
  mkBuiltin "nonvar" 1
    (fun args =>
       if Nat.eqb (length args) 1
       then a <- index args 1;; ret (None, negb (isVariable a))
       else ret (None, false)).

(** ** The program database and the resolution driver *)

Inductive error : Type :=
| TypeErr (Exp : string) (term : Term)
| errorString (s : string).

(** [type Prog struct { running bool; clauses map[sig][]Clause }] *)
Record Prog : Type := mkProg {
  running : bool;
  clauses : gmap sig (list Clause)
}.

(** [p.Add(clause)]: append to the bucket of the clause's signature. *)
Definition Prog_Add (clause : Clause) (p : Prog) : Prog :=
  let s := Signature clause in
  mkProg (running p) (<[s := default [] (clauses p !! s) ++ [clause]]> (clauses p)).

Definition NewProg (cls : list Clause) : Prog :=
  fold_left (fun p c => Prog_Add c p) cls (mkProg false ∅).

(** [p.match(c)] for the compound [c = f(args)]. *)
Definition Prog_match (p : Prog) (f : string) (args : list Term) : list Clause :=
  default [] (clauses p !! (f, Z.of_nat (length args))).

(** [visitVarsTerm(t, fn)]; the callback's captured state is the
    accumulator [s]. *)
Fixpoint visitVarsTerm {S : Type} (t : Term) (fn : var -> S -> M S) (s : S)
  : M S :=
  match t with
  | Var v => fn v s
  | Compound _ args =>
      (fix visitArgs (l : list Term) (s : S) : M S :=
         match l with
         | [] => ret s
         | arg :: l' => s' <- visitVarsTerm arg fn s;; visitArgs l' s'
         end) args s
  | _ => ret s
  end.

Fixpoint visitArgs {S : Type} (l : list Term) (fn : var -> S -> M S) (s : S)
  : M S :=
  match l with
  | [] => ret s
  | arg :: l' => s' <- visitVarsTerm arg fn s;; visitArgs l' fn s'
  end.

(** [visitVars(c, fn)] *)
Fixpoint visitVars {S : Type} (fuel : nat) (c : option goalptr)
  (fn : var -> S -> M S) (s : S) : M S :=
  match fuel with
  | O => spin
  | S fuel =>
      match c with
      | None => ret s
      | Some g =>
          n <- getGoal g;;
          s' <- visitVarsTerm (head n) fn s;;
          n' <- getGoal g;;
          visitVars fuel (tail n') fn s'
      end
  end.

(** [type choicepoint struct] *)
#[warnings="-register-all"]
Inductive choicepoint : Type := mkChoicepoint {
  backtrack : option choicepoint;
  fact : string * list Term;
  remaining : option goalptr;
  cp_clauses : list Clause;
  state : gmap var (option Term)
}.

Definition set_clauses (cp : choicepoint) (cs : list Clause) : choicepoint :=
  mkChoicepoint (backtrack cp) (fact cp) (remaining cp) cs (state cp).

Definition set_backtrack (cp : choicepoint) (b : option choicepoint)
  : choicepoint :=
  mkChoicepoint b (fact cp) (remaining cp) (cp_clauses cp) (state cp).

(** [p.choicepoint(c, backtrack)]; [p] may be the nil pointer. *)
Definition Prog_choicepoint (fuel : nat) (p : option Prog)
  (c : option goalptr) (bt : option choicepoint)
  : M (option choicepoint * option error) :=
  match c with
  | None => panic "syntax: Compound cannot be nil"
  | Some g =>
      n <- getGoal g;;
      fct <- Callable fuel (head n);;
      match fct with
      | None => ret (None, Some (TypeErr "callable" (head n)))
      | Some (f, args) =>
          st <- visitVars fuel c
                  (fun v st => cell <- getVar v;; ret (<[v := value cell]> st))
                  (∅ : gmap var (option Term));;
          n' <- getGoal g;;
          match p with
          | None => panic "invalid memory address"
          | Some p =>
              ret (Some (mkChoicepoint bt (f, args) (tail n')
                           (Prog_match p f args) st), None)
          end
      end
  end.

(** [cp.pop()] *)
Definition choicepoint_pop (cp : choicepoint) : option Clause * choicepoint :=
  match cp_clauses cp with
  | [] => (None, cp)
  | clause :: rest => (Some clause, set_clauses cp rest)
  end.

(** [cp.resetVars()] *)
Definition choicepoint_resetVars (fuel : nat) (cp : choicepoint) : M unit :=
  let reset := fun (v : var) (_ : unit) =>
                 setValue v (default None (state cp !! v)) in
  visitArgs (snd (fact cp)) reset tt;;;
  visitVars fuel (remaining cp) reset tt.

(** The walk [for tail.tail != nil { tail = tail.tail }]. *)
Fixpoint lastGoal (fuel : nat) (g : goalptr) : M goalptr :=
  match fuel with
  | O => spin
  | S fuel =>
      n <- getGoal g;;
      match tail n with
      | None => ret g
      | Some g' => lastGoal fuel g'
      end
  end.

(** The loop of [cp.next()], by recursion on the clauses still queued. *)
Fixpoint next_loop (fuel : nat) (cp : choicepoint) (queue : list Clause)
  : M (option goalptr * bool * list Clause) :=
  match queue with
  | [] => ret (None, false, [])
  | clause :: queue' =>
      choicepoint_resetVars fuel cp;;;
      r <- Call fuel clause (snd (fact cp));;
      if negb (snd r) then next_loop fuel cp queue'
      else
        match fst r with
        | None => ret (remaining cp, true, queue')
        | Some result =>
            tl <- lastGoal fuel result;;
            setTail tl (remaining cp);;;
            ret (Some result, true, queue')
        end
  end.

(** [cp.next()], returning the goal, the flag and the updated receiver. *)
Definition choicepoint_next (fuel : nat) (cp : choicepoint)
  : M (option goalptr * bool * choicepoint) :=
  r <- next_loop fuel cp (cp_clauses cp);;
  ret (fst (fst r), snd (fst r), set_clauses cp (snd r)).

(** [type Results struct { p *Prog; cp *choicepoint; err error }] *)
Record Results : Type := mkResults {
  p : option Prog;
  cp : option choicepoint;
  err : option error
}.

(** [r.Close()] *)
Definition Results_Close (r : Results) : Results :=
  mkResults None None
    (match err r with
     | None => Some (errorString "results closed")
     | Some e => Some e
     end).

(** [r.Err()] *)
Definition Results_Err (r : Results) : option error := err r.

(** The loop [for compound != nil && compound.head == Cut]. *)
Fixpoint cut_loop (fuel : nat) (c : choicepoint) (compound : option goalptr)
  : M (choicepoint * option goalptr) :=
  match fuel with
  | O => spin
  | S fuel =>
      match compound with
      | None => ret (c, None)
      | Some g =>
          n <- getGoal g;;
          match head n with
          | Cut => cut_loop fuel (set_backtrack c None) (tail n)
          | _ => ret (c, compound)
          end
      end
  end.

(** The loop [for r.cp != nil] of [r.Next()]. *)
Fixpoint Next_loop (fuel : nat) (r : Results) {struct fuel}
  : M (bool * Results) :=
  match fuel with
  | O => spin
  | S fuel' =>
      match cp r with
      | None => ret (false, r)
      | Some c =>
          x <- choicepoint_next fuel c;;
          let '(compound, matched, c) := x in
          if negb matched
          then Next_loop fuel' (mkResults (p r) (backtrack c) (err r))
          else
            y <- cut_loop fuel c compound;;
            let '(c, compound) := y in
            match compound with
            | None => ret (true, mkResults (p r) (Some c) (err r))
            | Some _ =>
                z <- Prog_choicepoint fuel (p r) compound (Some c);;
                let r' := mkResults (p r) (fst z) (snd z) in
                match snd z with
                | Some _ => ret (false, r')
                | None => Next_loop fuel' r'
                end
            end
      end
  end.

(** [r.Next()] *)
Definition Results_Next (fuel : nat) (r : Results) : M (bool * Results) :=
  match err r with
  | Some _ => ret (false, r)
  | None => Next_loop fuel r
  end.

(** [p.Query(c)] *)
Definition Prog_Query (fuel : nat) (p : Prog) (c : option goalptr)
  : M Results :=
  z <- Prog_choicepoint fuel (Some p) c None;;
  match snd z with
  | Some e => ret (mkResults None None (Some e))
  | None => ret (mkResults (Some p) (fst z) None)
  end.

(** ** Observations used in the statements *)

(** The terms of a goal list, front to back (the walk of [Goal.String]). *)
Fixpoint goalTerms (fuel : nat) (h : Heap) (g : option goalptr)
  : option (list Term) :=
  match fuel with
  | O => None
  | S fuel =>
      match g with
      | None => Some []
      | Some a =>
          match hgoals h !! a with
          | None => None
          | Some n => option_map (cons (head n)) (goalTerms fuel h (tail n))
          end
      end
  end.

(** The [value] field of the variable at address [v]. *)
Definition valueOf (h : Heap) (v : var) : option Term :=
  match hvars h !! v with
  | Some c => value c
  | None => None
  end.

(** Every choice point of the backtrack chain has an empty clause queue. *)
Fixpoint exhausted (c : choicepoint) : bool :=
  match c with
  | mkChoicepoint bt _ _ cs _ =>
      match cs with
      | [] => match bt with None => true | Some b => exhausted b end
      | _ :: _ => false
      end
  end.

(** Number of choice points on the backtrack chain. *)
Fixpoint depth (c : choicepoint) : nat :=
  match c with
  | mkChoicepoint bt _ _ _ _ =>
      match bt with None => 1 | Some b => S (depth b) end
  end.

(** ** Scenarios *)

(** [likes(eric, shoes). likes(bob, pizza). likes(eric, bubblegum).
    likes(bob, beer).] as in [TestMultiMatch]. *)
Definition likes_clauses : list Clause :=
  [Fact "likes" [Atom "eric"; Atom "shoes"];
   Fact "likes" [Atom "bob"; Atom "pizza"];
   Fact "likes" [Atom "eric"; Atom "bubblegum"];
   Fact "likes" [Atom "bob"; Atom "beer"]].

(** One pull on a query: the flag returned by [Next] and, read right
    after it, [x.Value()]. *)
Definition pull (fuel : nat) (x : var) (r : Results)
  : M (bool * option Term * Results) :=
  n <- Results_Next fuel r;;
  v <- Value fuel x;;
  ret (fst n, v, snd n).

(** Three pulls in a row, keeping the observations. *)
Definition pull3 (fuel : nat) (x : var) (r : Results)
  : M (list (bool * option Term) * Results) :=
  a <- pull fuel x r;;
  b <- pull fuel x (snd a);;
  c <- pull fuel x (snd b);;
  ret ([fst a; fst b; fst c], snd c).

(** The query [likes(bob, X)] against [likes_clauses]. *)
Definition likes_session (fuel : nat) : M (list (bool * option Term) * Results) :=
  x <- NewVariable "X";;
  q <- NewGoal (Compound "likes" [Atom "bob"; Var x]) [];;
  r <- Prog_Query fuel (NewProg likes_clauses) (Some q);;
  pull3 fuel x r.

(** [a(1). a(2). b(X) :- a(X), !.] and the query [b(Y)]. *)
Definition cut_session (fuel : nat) : M (list (bool * option Term) * Results) :=
  x <- NewVariable "X";;
  body <- NewGoal (Compound "a" [Var x]) [Cut];;
  let prog := NewProg [Fact "a" [Integer 1]; Fact "a" [Integer 2];
                       RuleClause (NewRule "b" [Var x] (Some body))] in
  y <- NewVariable "Y";;
  q <- NewGoal (Compound "b" [Var y]) [];;
  r <- Prog_Query fuel prog (Some q);;
  pull3 fuel y r.

(** The heap holding the variable [X] (address 0) and the one-goal list
    [f(X, 3)] (address 0). *)
Definition f_heap : Heap :=
  mkHeap [mkVariable "X" None]
         [mkGoal (Compound "f" [Var 0; Integer 3]) None].

(** The program [f(1, 2).] *)
Definition f_prog : Prog := NewProg [Fact "f" [Integer 1; Integer 2]].

(** The heap holding [X] (address 0), [Y] (address 1) and the body
    [a(X), b(X), c(X)] (goal nodes 0, 1, 2). *)
Definition r3_heap : Heap :=
  mkHeap [mkVariable "X" None; mkVariable "Y" None]
         [mkGoal (Compound "a" [Var 0]) (Some 1);
          mkGoal (Compound "b" [Var 0]) (Some 2);
          mkGoal (Compound "c" [Var 0]) None].

(** The rule [r(X) :- a(X), b(X), c(X).] over [r3_heap]. *)
Definition r3_rule : Rule := NewRule "r" [Var 0] (Some 0).

(** Two unbound variables [X] (address 0) and [Y] (address 1). *)
Definition xy_heap : Heap :=
  mkHeap [mkVariable "X" None; mkVariable "Y" None] [].

(** [xy_heap] after [X.Unify(Y)] has run twice. *)
Definition xy_cycle : Heap :=
  mkHeap [mkVariable "X" (Some (Var 1)); mkVariable "Y" (Some (Var 0))] [].

(** [n] calls of [Next] in a row, with the flags they return. *)
Fixpoint Next_times (fuel n : nat) (r : Results) : M (list bool * Results) :=
  match n with
  | O => ret ([], r)
  | S n =>
      a <- Results_Next fuel r;;
      b <- Next_times fuel n (snd a);;
      ret (fst a :: fst b, snd b)
  end.

(** The floats [1.] and [1.0001] of [TestNumberUnify]. *)
Definition float_1 : spec_float := S754_finite false 4503599627370496 (-52).
Definition float_1_0001 : spec_float := S754_finite false 4504049987333233 (-52).

(** [testUnify]: the flags of a sequence of [Unify] calls run one after
    the other on the same heap. *)
Fixpoint testUnify (fuel : nat) (calls : list (Term * Term)) : M (list bool) :=
  match calls with
  | [] => ret []
  | (t1, t2) :: calls' =>
      b <- Unify fuel t1 t2;;
      bs <- testUnify fuel calls';;
      ret (b :: bs)
  end.

(** [TestSimpleRule]: [likes(eric, pizza). likes(bob, pizza).
    friends(P1, P2) :- likes(P1, T), likes(P2, T).] queried with
    [friends(X, Y)]; the values of [X] and [Y] after each of five pulls. *)
Definition friends_session (fuel : nat)
  : M (list (bool * option Term * option Term)) :=
  p1 <- NewVariable "Person1";;
  p2 <- NewVariable "Person2";;
  thing <- NewVariable "Thing";;
  body <- NewGoal (Compound "likes" [Var p1; Var thing])
            [Compound "likes" [Var p2; Var thing]];;
  let prog := NewProg [Fact "likes" [Atom "eric"; Atom "pizza"];
                       Fact "likes" [Atom "bob"; Atom "pizza"];
                       RuleClause (NewRule "friends" [Var p1; Var p2]
                                     (Some body))] in
  x <- NewVariable "X";;
  y <- NewVariable "Y";;
  q <- NewGoal (Compound "friends" [Var x; Var y]) [];;
  r <- Prog_Query fuel prog (Some q);;
  (fix pulls (n : nat) (r : Results) : M (list (bool * option Term * option Term)) :=
     match n with
     | O => ret []
     | S n =>
         a <- Results_Next fuel r;;
         vx <- Value fuel x;;
         vy <- Value fuel y;;
         rest <- pulls n (snd a);;
         ret ((fst a, vx, vy) :: rest)
     end) 5 r.

(** ** The remaining type-test builtins (type.go) *)

Definition isInteger (t : Term) : bool :=
  match t with Integer _ => true | _ => false end.

Definition isFloat64 (t : Term) : bool :=
  match t with Float64 _ => true | _ => false end.

Definition Integer1 : builtin :=
  mkBuiltin "integer" 1
    (fun args =>
       if Nat.eqb (length args) 1
       then a <- index args 1;; ret (None, isInteger a)
       else ret (None, false)).

Definition Float1 : builtin :=
  mkBuiltin "float" 1
    (fun args =>
       if Nat.eqb (length args) 1
       then a <- index args 1;; ret (None, isFloat64 a)
       else ret (None, false)).

(** ** Measures and predicates on terms and heaps *)

(** The variables [visitVarsTerm] calls its callback on, in call order. *)
Fixpoint Term_vars (t : Term) : list var :=
  match t with
  | Var v => [v]
  | Compound _ args => flat_map Term_vars args
  | _ => []
  end.

(** Nesting depth of a term. *)
Fixpoint Term_depth (t : Term) : nat :=
  match t with
  | Compound _ args => S (list_max (map Term_depth args))
  | _ => 1
  end.

Definition is_nan (f : spec_float) : bool :=
  match f with S754_nan => true | _ => false end.

(** A term without variables and without the float NaN. *)
Fixpoint rigid (t : Term) : bool :=
  match t with
  | Var _ => false
  | Float64 f => negb (is_nan f)
  | Compound _ args => forallb rigid args
  | _ => true
  end.

(** [t] is neither a variable nor one of the two singletons. *)
Definition plain (t : Term) : bool :=
  match t with
  | Var _ | AnonVariable | Cut => false
  | _ => true
  end.

(** The heap [h'] has the same goal nodes and the same variables under
    the same names as [h]; only [value] fields may differ. *)
Definition same_shape (h h' : Heap) : Prop :=
  hgoals h' = hgoals h /\ map name (hvars h') = map name (hvars h).

(** Every binding of [h] is still in place in [h']. *)
Definition keeps_bindings (h h' : Heap) : Prop :=
  forall v t, valueOf h v = Some t -> valueOf h' v = Some t.

(** [ts] is a suffix of [l]. *)
Definition is_suffix {A} (ts l : list A) : Prop := exists pre, l = pre ++ ts.

(** The heap holding [X] (address 0) and the one-goal list [f(X, 2)]. *)
Definition f2_heap : Heap :=
  mkHeap [mkVariable "X" None]
         [mkGoal (Compound "f" [Var 0; Integer 2]) None].

(** The root choice point of the query [f(X, n)] against [f_prog], with
    the candidates [cs] still queued. *)
Definition f_root (n : Z) (cs : list Clause) : choicepoint :=
  mkChoicepoint None ("f", [Var 0; Integer n]) None cs {[ 0 := None ]}.

(** The results of that query with [cs] still queued. *)
Definition f_results (n : Z) (cs : list Clause) : Results :=
  mkResults (Some f_prog) (Some (f_root n cs)) None.

(** The heap after the assignment [v.value = t]. *)
Definition assign (t : var -> option Term) (h : Heap) (v : var) : Heap :=
  mkHeap (alter (fun c => mkVariable (name c) (t v)) v (hvars h)) (hgoals h).

(** The variables occurring in the terms [ts], in visiting order. *)
Definition terms_vars (ts : list Term) : list var := flat_map Term_vars ts.

(** [t] with every variable that has an entry in the table [m] replaced
    by the variable the table gives for it. *)
Fixpoint Term_rename (m : gmap var var) (t : Term) : Term :=
  match t with
  | Var v => match m !! v with Some w => Var w | None => Var v end
  | Compound f args => Compound f (map (Term_rename m) args)
  | _ => t
  end.

(** What one run of the copying closures does to the table and the heap:
    goal nodes and existing variables stay, only unbound variables are
    appended, the table only grows, and its new entries point, one to
    one, to the appended variables. *)
Definition copied (vars : gmap var var) (h : Heap)
  (vars' : gmap var var) (h' : Heap) : Prop :=
  hgoals h' = hgoals h
  /\ (exists news, hvars h' = hvars h ++ news
                   /\ Forall (fun c => value c = None) news)
  /\ (forall v w, vars !! v = Some w -> vars' !! v = Some w)
  /\ (forall v w, vars' !! v = Some w ->
                  vars !! v = Some w
                  \/ (vars !! v = None
                      /\ length (hvars h) <= w < length (hvars h')))
  /\ (forall v1 v2 w, vars' !! v1 = Some w -> vars' !! v2 = Some w ->
                      vars !! v1 = None -> vars !! v2 = None -> v1 = v2).

(** The heap holding [Person1], [Person2], [Thing] (addresses 0, 1, 2)
    and the body [likes(Person1, Thing), likes(Person2, Thing)] (goal
    nodes 0 and 1) of [TestSimpleRule]. *)
Definition friends_heap : Heap :=
  mkHeap [mkVariable "Person1" None; mkVariable "Person2" None;
          mkVariable "Thing" None]
         [mkGoal (Compound "likes" [Var 0; Var 2]) (Some 1);
          mkGoal (Compound "likes" [Var 1; Var 2]) None].

(** The rule [friends(Person1, Person2) :- likes(Person1, Thing),
    likes(Person2, Thing).] over [friends_heap]. *)
Definition friends_rule : Rule := NewRule "friends" [Var 0; Var 1] (Some 0).

(** [friends_heap] after [friends_rule.cp()]. *)
Definition friends_heap_cp : Heap :=
  mkHeap (hvars friends_heap
          ++ [mkVariable "Person1" None; mkVariable "Person2" None;
              mkVariable "Thing" None])
         (hgoals friends_heap
          ++ [mkGoal (Compound "likes" [Var 3; Var 5]) (Some 3);
              mkGoal (Compound "likes" [Var 4; Var 5]) None]).

(** ** Relations on computations *)

(** [le_M m1 m2]: [m2] behaves as [m1] wherever [m1] does not run out of
    fuel. *)
Definition le_M {A} (m1 m2 : M A) : Prop :=
  forall h, m1 h = Spin \/ m1 h = m2 h.

(** [preserves_heap m]: when [m] returns, the heap is as it was. *)
Definition preserves_heap {A} (m : M A) : Prop :=
  forall h a h', m h = Done (a, h') -> h' = h.

(** [inv_M R m]: whenever [m] returns, the heaps before and after are
    related by [R]. *)
Definition inv_M {A} (R : Heap -> Heap -> Prop) (m : M A) : Prop :=
  forall h a h', m h = Done (a, h') -> R h h'.

(** Only unbound variables were bound on the way from [h] to [h']. *)
Definition binds_only (h h' : Heap) : Prop :=
  same_shape h h' /\ keeps_bindings h h'.

(** * Properties *)

(** ** Fuel

    Every function of the embedding is monotone in its fuel for [le_M],
    so a result obtained with some fuel is the result for every larger
    fuel. *)

Lemma le_M_refl {A} (m : M A) : le_M m m.
Proof. intros h. right. reflexivity. Qed.

Lemma le_M_spin {A} (m : M A) : le_M spin m.
Proof. intros h. left. reflexivity. Qed.

Lemma le_M_bind {A B} (m1 m2 : M A) (k1 k2 : A -> M B) :
  le_M m1 m2 -> (forall a, le_M (k1 a) (k2 a)) ->
  le_M (bind m1 k1) (bind m2 k2).
Proof.
  intros Hm Hk h. unfold bind.
  destruct (Hm h) as [E|E].
  - left. rewrite E. reflexivity.
  - rewrite <- E. destruct (m1 h) as [[a h']| |]; auto. apply Hk.
Qed.

Lemma le_M_Done {A} (m1 m2 : M A) h r :
  le_M m1 m2 -> m1 h = Done r -> m2 h = Done r.
Proof.
  intros H E. destruct (H h) as [E'|E']; congruence.
Qed.

Lemma le_M_Panic {A} (m1 m2 : M A) h msg :
  le_M m1 m2 -> m1 h = Panic msg -> m2 h = Panic msg.
Proof.
  intros H E. destruct (H h) as [E'|E']; congruence.
Qed.

(** One step of a monotonicity proof: split binds, case on what both
    sides case on, close by reflexivity or an assumption. *)
Ltac mono_step :=
  first
    [ apply le_M_refl
    | apply le_M_spin
    | assumption
    | apply le_M_bind; [|intros ?]
    | match goal with
      | |- le_M (match ?x with _ => _ end) _ => destruct x
      | |- le_M (if ?x then _ else _) _ => destruct x
      end ].

Ltac mono := repeat mono_step.

Lemma rangeAll_le (b1 b2 : nat -> Term -> M bool) :
  (forall i arg, le_M (b1 i arg) (b2 i arg)) ->
  forall l i, le_M (rangeAll b1 i l) (rangeAll b2 i l).
Proof.
  intros Hb l. induction l as [|arg l IH]; intros i; simpl.
  - apply le_M_refl.
  - apply le_M_bind; [apply Hb|]. intros [|]; [apply IH|apply le_M_refl].
Qed.

Lemma Unify_mono n :
  forall m, n <= m -> forall t1 t2, le_M (Unify n t1 t2) (Unify m t1 t2).
Proof.
  induction n as [|n IH]; intros m Hle t1 t2; [apply le_M_spin|].
  destruct m as [|m]; [lia|]. assert (Hnm : n <= m) by lia.
  specialize (IH m Hnm).
  destruct t1, t2; simpl; mono; try apply IH.
  apply rangeAll_le. intros i arg. mono. apply IH.
Qed.

Lemma derefLoop_mono n :
  forall m, n <= m -> forall t, le_M (derefLoop n t) (derefLoop m t).
Proof.
  induction n as [|n IH]; intros m Hle t; [apply le_M_spin|].
  destruct m as [|m]; [lia|]. assert (Hnm : n <= m) by lia.
  simpl. mono. apply IH, Hnm.
Qed.

Lemma Value_mono n m v : n <= m -> le_M (Value n v) (Value m v).
Proof.
  intros Hle. unfold Value. mono. apply derefLoop_mono, Hle.
Qed.

Lemma Callable_mono n :
  forall m, n <= m -> forall t, le_M (Callable n t) (Callable m t).
Proof.
  induction n as [|n IH]; intros m Hle t; [apply le_M_spin|].
  destruct m as [|m]; [lia|]. assert (Hnm : n <= m) by lia.
  simpl. mono. apply IH, Hnm.
Qed.

Lemma cp_loop_mono n :
  forall m, n <= m ->
  forall last next vars,
    le_M (cp_loop n last next vars) (cp_loop m last next vars).
Proof.
  induction n as [|n IH]; intros m Hle last next vars; [apply le_M_spin|].
  destruct m as [|m]; [lia|]. assert (Hnm : n <= m) by lia.
  simpl. mono. apply IH, Hnm.
Qed.

Lemma Rule_cp_mono n m r : n <= m -> le_M (Rule_cp n r) (Rule_cp m r).
Proof.
  intros Hle. unfold Rule_cp. mono. apply cp_loop_mono, Hle.
Qed.

Lemma Call_mono n m c args : n <= m -> le_M (Call n c args) (Call m c args).
Proof.
  intros Hle. destruct c as [f cargs|r|b]; simpl.
  - unfold Compound_Call. mono.
    apply rangeAll_le. intros i arg. mono. apply Unify_mono, Hle.
  - unfold Rule_Call.
    destruct (negb (length args =? length (rargs r))); [apply le_M_refl|].
    apply le_M_bind; [apply Rule_cp_mono, Hle|]. intros ruleCP.
    apply le_M_bind; [|intros ok; apply le_M_refl].
    apply rangeAll_le. intros i arg. mono. apply Unify_mono, Hle.
  - apply le_M_refl.
Qed.

Lemma visitVars_mono {S : Type} (fn : var -> S -> M S) n :
  forall m, n <= m ->
  forall c s, le_M (visitVars n c fn s) (visitVars m c fn s).
Proof.
  induction n as [|n IH]; intros m Hle c s; [apply le_M_spin|].
  destruct m as [|m]; [lia|]. assert (Hnm : n <= m) by lia.
  simpl. mono. apply IH, Hnm.
Qed.

Lemma Prog_choicepoint_mono n m pr c bt :
  n <= m -> le_M (Prog_choicepoint n pr c bt) (Prog_choicepoint m pr c bt).
Proof.
  intros Hle. unfold Prog_choicepoint.
  destruct c as [g|]; [|apply le_M_refl].
  apply le_M_bind; [apply le_M_refl|]. intros gn.
  apply le_M_bind; [apply Callable_mono, Hle|]. intros [[f args]|]; mono.
  apply visitVars_mono, Hle.
Qed.

Lemma choicepoint_resetVars_mono n m c :
  n <= m -> le_M (choicepoint_resetVars n c) (choicepoint_resetVars m c).
Proof.
  intros Hle. unfold choicepoint_resetVars. mono. apply visitVars_mono, Hle.
Qed.

Lemma lastGoal_mono n :
  forall m, n <= m -> forall g, le_M (lastGoal n g) (lastGoal m g).
Proof.
  induction n as [|n IH]; intros m Hle g; [apply le_M_spin|].
  destruct m as [|m]; [lia|]. assert (Hnm : n <= m) by lia.
  simpl. mono. apply IH, Hnm.
Qed.

Lemma next_loop_mono n m c :
  n <= m -> forall queue, le_M (next_loop n c queue) (next_loop m c queue).
Proof.
  intros Hle queue. induction queue as [|clause queue IH]; simpl.
  - apply le_M_refl.
  - apply le_M_bind; [apply choicepoint_resetVars_mono, Hle|]. intros _.
    apply le_M_bind; [apply Call_mono, Hle|]. intros [body matched].
    simpl. destruct matched; simpl; [|apply IH].
    destruct body as [result|]; [|apply le_M_refl].
    apply le_M_bind; [apply lastGoal_mono, Hle|]. intros tl. apply le_M_refl.
Qed.

Lemma choicepoint_next_mono n m c :
  n <= m -> le_M (choicepoint_next n c) (choicepoint_next m c).
Proof.
  intros Hle. unfold choicepoint_next. mono. apply next_loop_mono, Hle.
Qed.

Lemma cut_loop_mono n :
  forall m, n <= m ->
  forall c compound, le_M (cut_loop n c compound) (cut_loop m c compound).
Proof.
  induction n as [|n IH]; intros m Hle c compound; [apply le_M_spin|].
  destruct m as [|m]; [lia|]. assert (Hnm : n <= m) by lia.
  simpl. mono. apply IH, Hnm.
Qed.

Lemma Next_loop_S fuel r :
  Next_loop (S fuel) r =
  match cp r with
  | None => ret (false, r)
  | Some c =>
      x <- choicepoint_next (S fuel) c;;
      let '(compound, matched, c) := x in
      if negb matched
      then Next_loop fuel (mkResults (p r) (backtrack c) (err r))
      else
        y <- cut_loop (S fuel) c compound;;
        let '(c, compound) := y in
        match compound with
        | None => ret (true, mkResults (p r) (Some c) (err r))
        | Some _ =>
            z <- Prog_choicepoint (S fuel) (p r) compound (Some c);;
            let r' := mkResults (p r) (fst z) (snd z) in
            match snd z with
            | Some _ => ret (false, r')
            | None => Next_loop fuel r'
            end
        end
  end.
Proof. reflexivity. Qed.

Lemma Next_loop_mono n :
  forall m, n <= m -> forall r, le_M (Next_loop n r) (Next_loop m r).
Proof.
  induction n as [|n IH]; intros m Hle r; [apply le_M_spin|].
  destruct m as [|m]; [lia|]. assert (Hnm : n <= m) by lia.
  rewrite !Next_loop_S. destruct (cp r) as [c|]; [|apply le_M_refl].
  apply le_M_bind; [apply choicepoint_next_mono, Hle|].
  intros [[compound matched] c']. destruct matched; cbn [negb];
    [|apply IH, Hnm].
  apply le_M_bind; [apply cut_loop_mono, Hle|]. intros [c'' compound'].
  destruct compound' as [g|]; [|apply le_M_refl].
  apply le_M_bind; [apply Prog_choicepoint_mono, Hle|]. intros [ncp e].
  cbn [fst snd]. destruct e; [apply le_M_refl|apply IH, Hnm].
Qed.

Lemma Results_Next_mono n m r :
  n <= m -> le_M (Results_Next n r) (Results_Next m r).
Proof.
  intros Hle. unfold Results_Next. destruct (err r); [apply le_M_refl|].
  apply Next_loop_mono, Hle.
Qed.

Lemma Prog_Query_mono n m pr c :
  n <= m -> le_M (Prog_Query n pr c) (Prog_Query m pr c).
Proof.
  intros Hle. unfold Prog_Query. mono. apply Prog_choicepoint_mono, Hle.
Qed.

Lemma pull_mono n m x r : n <= m -> le_M (pull n x r) (pull m x r).
Proof.
  intros Hle. unfold pull.
  apply le_M_bind; [apply Results_Next_mono, Hle|]. intros a.
  apply le_M_bind; [apply Value_mono, Hle|]. intros v. apply le_M_refl.
Qed.

Lemma pull3_mono n m x r : n <= m -> le_M (pull3 n x r) (pull3 m x r).
Proof.
  intros Hle. unfold pull3.
  repeat (apply le_M_bind; [apply pull_mono, Hle|]; intros ?).
  apply le_M_refl.
Qed.

Lemma likes_session_mono n m :
  n <= m -> le_M (likes_session n) (likes_session m).
Proof.
  intros Hle. unfold likes_session.
  apply le_M_bind; [apply le_M_refl|]. intros x.
  apply le_M_bind; [apply le_M_refl|]. intros q.
  apply le_M_bind; [apply Prog_Query_mono, Hle|]. intros r.
  apply pull3_mono, Hle.
Qed.

Lemma cut_session_mono n m :
  n <= m -> le_M (cut_session n) (cut_session m).
Proof.
  intros Hle. unfold cut_session.
  apply le_M_bind; [apply le_M_refl|]. intros x.
  apply le_M_bind; [apply le_M_refl|]. intros body.
  apply le_M_bind; [apply le_M_refl|]. intros y.
  apply le_M_bind; [apply le_M_refl|]. intros q.
  apply le_M_bind; [apply Prog_Query_mono, Hle|]. intros r.
  apply pull3_mono, Hle.
Qed.

(** ** Reading the heap

    Resolving a callable and taking the snapshot of a choice point only
    read the heap. *)

Lemma preserves_ret {A} (a : A) : preserves_heap (ret a).
Proof. intros h a' h' H. inversion H. reflexivity. Qed.

Lemma preserves_getVar v : preserves_heap (getVar v).
Proof.
  intros h a h' H. unfold getVar in H.
  destruct (hvars h !! v); inversion H. reflexivity.
Qed.

Lemma preserves_getGoal g : preserves_heap (getGoal g).
Proof.
  intros h a h' H. unfold getGoal in H.
  destruct (hgoals h !! g); inversion H. reflexivity.
Qed.

Lemma preserves_bind {A B} (m : M A) (k : A -> M B) :
  preserves_heap m -> (forall a, preserves_heap (k a)) ->
  preserves_heap (bind m k).
Proof.
  intros Hm Hk h b h' H. unfold bind in H.
  destruct (m h) as [[a h1]| |] eqn:E; try discriminate.
  apply Hm in E. subst h1. apply (Hk a h b h' H).
Qed.

(** Induction on terms, with the arguments of a compound covered. *)
Lemma Term_nested_ind (P : Term -> Prop) :
  (forall a, P (Atom a)) ->
  (forall i, P (Integer i)) ->
  (forall f, P (Float64 f)) ->
  (forall v, P (Var v)) ->
  (forall f args, Forall P args -> P (Compound f args)) ->
  P AnonVariable ->
  P Cut ->
  forall t, P t.
Proof.
  intros HA HI HF HV HC HAn HCut.
  fix IH 1. intros [a|i|f|v|f args| |].
  - apply HA.
  - apply HI.
  - apply HF.
  - apply HV.
  - apply HC. revert args. fix IHargs 1. intros [|t args].
    + constructor.
    + constructor; [apply IH|apply IHargs].
  - apply HAn.
  - apply HCut.
Qed.

Lemma visitVarsTerm_Compound {S : Type} f args (fn : var -> S -> M S) :
  forall s h, visitVarsTerm (Compound f args) fn s h = visitArgs args fn s h.
Proof.
  simpl. induction args as [|arg args IH]; intros s h; [reflexivity|].
  simpl. unfold bind.
  destruct (visitVarsTerm arg fn s h) as [[s' h']| |]; auto.
Qed.

Lemma visitVarsTerm_preserves {S : Type} (fn : var -> S -> M S) :
  (forall v s, preserves_heap (fn v s)) ->
  forall t s, preserves_heap (visitVarsTerm t fn s).
Proof.
  intros Hfn t. induction t as [a|i|f|v|f args IH| |] using Term_nested_ind;
    intros s; try apply preserves_ret.
  - apply Hfn.
  - intros h a h' H. rewrite visitVarsTerm_Compound in H.
    revert s h H. induction IH as [|arg args Harg _ IHargs]; intros s h H.
    + inversion H. reflexivity.
    + simpl in H. unfold bind in H.
      destruct (visitVarsTerm arg fn s h) as [[s1 h1]| |] eqn:E;
        try discriminate.
      apply Harg in E. subst h1. apply (IHargs s1 h H).
Qed.

Lemma visitVars_preserves {S : Type} (fn : var -> S -> M S) :
  (forall v s, preserves_heap (fn v s)) ->
  forall fuel c s, preserves_heap (visitVars fuel c fn s).
Proof.
  intros Hfn fuel. induction fuel as [|fuel IH]; intros c s.
  - intros h a h' H. discriminate.
  - simpl. destruct c as [g|]; [|apply preserves_ret].
    apply preserves_bind; [apply preserves_getGoal|]. intros n.
    apply preserves_bind; [apply visitVarsTerm_preserves, Hfn|]. intros s'.
    apply preserves_bind; [apply preserves_getGoal|]. intros n'. apply IH.
Qed.

Lemma Callable_preserves fuel : forall t, preserves_heap (Callable fuel t).
Proof.
  induction fuel as [|fuel IH]; intros t.
  - intros h a h' H. discriminate.
  - destruct t; simpl; try apply preserves_ret.
    apply preserves_bind; [apply preserves_getVar|]. intros c.
    destruct (value c); [apply IH|apply preserves_ret].
Qed.

Lemma Prog_choicepoint_preserves fuel pr c bt :
  preserves_heap (Prog_choicepoint fuel pr c bt).
Proof.
  unfold Prog_choicepoint. destruct c as [g|].
  - apply preserves_bind; [apply preserves_getGoal|]. intros n.
    apply preserves_bind; [apply Callable_preserves|]. intros [[f args]|];
      [|apply preserves_ret].
    apply preserves_bind.
    + apply visitVars_preserves. intros v s.
      apply preserves_bind; [apply preserves_getVar|]. intros cell.
      apply preserves_ret.
    + intros st. apply preserves_bind; [apply preserves_getGoal|]. intros n'.
      destruct pr; [apply preserves_ret|]. intros h a h' H. discriminate.
  - intros h a h' H. discriminate.
Qed.


(** ** The loop of [cp.next()] follows [cp.pop()] *)

Lemma choicepoint_next_unfold fuel c :
  choicepoint_next fuel c =
  match choicepoint_pop c with
  | (None, c') => ret (None, false, set_clauses c' [])
  | (Some clause, c') =>
      r <- (choicepoint_resetVars fuel c;;;
            r <- Call fuel clause (snd (fact c));;
            if negb (snd r) then next_loop fuel c (cp_clauses c')
            else
              match fst r with
              | None => ret (remaining c, true, cp_clauses c')
              | Some result =>
                  tl <- lastGoal fuel result;;
                  setTail tl (remaining c);;;
                  ret (Some result, true, cp_clauses c')
              end);;
      ret (fst (fst r), snd (fst r), set_clauses c (snd r))
  end.
Proof.
  unfold choicepoint_next, choicepoint_pop.
  destruct c as [bt fct rem cs st]; simpl.
  destruct cs as [|clause rest]; reflexivity.
Qed.

(** ** The repository's tests, run on the embedding *)

(** [TestAtomUnify] *)
Example TestAtomUnify :
  testUnify 5 [(Atom "a", Atom "a"); (Atom "a", Atom "b");
               (Atom "a", Integer 1); (Atom "a", Float64 float_1);
               (Atom "foobar", Atom "foobar")] emptyHeap
  = Done ([true; false; false; false; true], emptyHeap).
Proof. reflexivity. Qed.

(** [TestNumberUnify] *)
Example TestNumberUnify :
  testUnify 5 [(Float64 float_1, Float64 float_1);
               (Float64 float_1, Integer 1);
               (Float64 float_1, Float64 float_1_0001)] emptyHeap
  = Done ([true; true; false], emptyHeap).
Proof. vm_compute. reflexivity. Qed.

(** [TestVariableUnify] and [TestFactUnify] *)
Example TestVariableUnify :
  (x <- NewVariable "X";;
   y <- NewVariable "Y";;
   z <- NewVariable "X";;
   testUnify 5 [(Var x, Integer 1); (Var x, Integer 2); (Var x, Integer 1);
                (Integer 1, Var x);
                (Var y, Atom "foo"); (Var y, Atom "foo");
                (Var z, Atom "bar");
                (Compound "f1" [Atom "foo"; Atom "bar"],
                 Compound "f1" [Atom "foo"; Var z])]) emptyHeap
  = Done ([true; false; true; true; true; true; true; true],
          mkHeap [mkVariable "X" (Some (Integer 1));
                  mkVariable "Y" (Some (Atom "foo"));
                  mkVariable "X" (Some (Atom "bar"))] []).
Proof. vm_compute. reflexivity. Qed.

(** [TestSimpleRule]: four solutions in the expected order, then false. *)
Example TestSimpleRule :
  exists h,
    friends_session 10 emptyHeap
    = Done ([(true, Some (Atom "eric"), Some (Atom "eric"));
             (true, Some (Atom "eric"), Some (Atom "bob"));
             (true, Some (Atom "bob"), Some (Atom "eric"));
             (true, Some (Atom "bob"), Some (Atom "bob"));
             (false, Some (Atom "bob"), Some (Atom "bob"))], h).
Proof. eexists. vm_compute. reflexivity. Qed.

(** ** Sticky errors and [Close] *)

Lemma Next_times_sticky fuel pr c e h :
  forall n,
    Next_times fuel n (mkResults pr c (Some e)) h
    = Done ((repeat false n, mkResults pr c (Some e)), h).
Proof.
  induction n as [|n IH]; [reflexivity|].
  simpl. unfold bind. simpl. unfold bind in IH. rewrite IH. reflexivity.
Qed.

(** Counterexample to C9. The query of an unbound variable [X] records
    [TypeErr{"callable", X}]; after [Close] the recorded error is still
    that [TypeErr], not ["results closed"]. *)
Lemma Close_keeps_a_recorded_TypeErr :
  exists r h,
    (x <- NewVariable "X";;
     q <- NewGoal (Var x) [];;
     Prog_Query 1 (NewProg []) (Some q)) emptyHeap = Done (r, h)
    /\ Results_Err r = Some (TypeErr "callable" (Var 0))
    /\ Results_Err (Results_Close r) = Some (TypeErr "callable" (Var 0))
    /\ Results_Err (Results_Close r) <> Some (errorString "results closed").
Proof.
  do 2 eexists. split; [vm_compute; reflexivity|].
  split; [reflexivity|]. split; [reflexivity|]. discriminate.
Qed.

(** C9, amended. Once an error is recorded, [Next] returns false and
    leaves the results (hence the error) and the heap as they are, so any
    number of later calls of [Next] all return false; [Close] records
    ["results closed"] when no error was recorded and keeps an error
    recorded earlier, every [Next] after [Close] returns false, and a
    second [Close] changes nothing. *)
Theorem Results_errors_sticky_Close_idempotent :
  (forall fuel pr c e h,
      Results_Next fuel (mkResults pr c (Some e)) h
      = Done ((false, mkResults pr c (Some e)), h))
  /\ (forall fuel n pr c e h,
         Next_times fuel n (mkResults pr c (Some e)) h
         = Done ((repeat false n, mkResults pr c (Some e)), h))
  /\ (forall pr c,
         Results_Err (Results_Close (mkResults pr c None))
         = Some (errorString "results closed"))
  /\ (forall pr c e,
         Results_Err (Results_Close (mkResults pr c (Some e))) = Some e)
  /\ (forall fuel n r h,
         Next_times fuel n (Results_Close r) h
         = Done ((repeat false n, Results_Close r), h))
  /\ (forall r, Results_Close (Results_Close r) = Results_Close r).
Proof.
  repeat split.
  - intros. apply Next_times_sticky.
  - intros fuel n r h. destruct r as [pr c [e|]]; apply Next_times_sticky.
  - intros r. destruct r as [pr c [e|]]; reflexivity.
Qed.

(** ** Solution order *)

(** C8. For the four [likes] facts, the query [likes(bob, X)] returns
    true with [X = pizza], then true with [X = beer], then false, with no
    error recorded. *)
Theorem likes_bob_solutions_in_insertion_order :
  exists r h,
    (forall k,
        likes_session (10 + k) emptyHeap
        = Done (([(true, Some (Atom "pizza")); (true, Some (Atom "beer"));
                  (false, Some (Atom "beer"))], r), h))
    /\ Results_Err r = None.
Proof.
  eexists. eexists. split.
  - intros k. apply (le_M_Done (likes_session 10)).
    + apply likes_session_mono. lia.
    + vm_compute. reflexivity.
  - reflexivity.
Qed.

(** ** Cut *)

(** The cut loop only ever clears the [backtrack] link of the choice
    point it is given: the candidate queue is returned as it was. *)
Lemma cut_loop_keeps_clauses fuel :
  forall c compound h c' compound' h',
    cut_loop fuel c compound h = Done ((c', compound'), h') ->
    cp_clauses c' = cp_clauses c /\ h' = h.
Proof.
  induction fuel as [|fuel IH]; intros c compound h c' compound' h' H.
  - discriminate.
  - simpl in H. destruct compound as [g|].
    + unfold bind, getGoal in H. destruct (hgoals h !! g) as [n|]; [|discriminate].
      destruct (head n); try (inversion H; subst; auto; fail).
      apply IH in H. destruct H as [H1 H2]. split; [exact H1 | exact H2].
    + inversion H; subst; auto.
Qed.

(** C1. For [a(1). a(2). b(X) :- a(X), !.] the query [b(Y)] returns
    true with [Y = 1] and then true again with [Y = 2] before returning
    false: the clause [a(2)] is tried after the cut was reached. *)
Theorem cut_leaves_alternative_a2 :
  exists r h,
    (forall k,
        cut_session (10 + k) emptyHeap
        = Done (([(true, Some (Integer 1)); (true, Some (Integer 2));
                  (false, Some (Integer 2))], r), h))
    /\ Results_Err r = None.
Proof.
  eexists. eexists. split.
  - intros k. apply (le_M_Done (cut_session 10)).
    + apply cut_session_mono. lia.
    + vm_compute. reflexivity.
  - reflexivity.
Qed.

(** ** Bindings after an exhausted search *)


Lemma depth_pos c : 1 <= depth c.
Proof. destruct c as [[b|] ? ? ? ?]; simpl; lia. Qed.

Lemma Next_loop_exhausted fuel :
  forall r h,
    match cp r with
    | Some c => exhausted c = true /\ depth c <= fuel
    | None => True
    end ->
    Next_loop (S fuel) r h = Done ((false, mkResults (p r) None (err r)), h).
Proof.
  induction fuel as [|fuel IH]; intros [pr [c|] e] h H; simpl in H;
    try reflexivity.
  - destruct H as [_ H]. pose proof (depth_pos c). lia.
  - destruct H as [Hex Hd].
    destruct c as [bt fct rem cs st]. simpl in Hex.
    destruct cs as [|? ?]; [|discriminate].
    change (Next_loop (S (S fuel))
              (mkResults pr (Some (mkChoicepoint bt fct rem [] st)) e) h)
      with (Next_loop (S fuel) (mkResults pr bt e) h).
    rewrite IH; [reflexivity|].
    simpl. destruct bt as [b|]; [|exact I].
    split; [exact Hex|]. simpl in Hd. lia.
Qed.

(** When no error is recorded and every pending choice point has already
    run out of candidate clauses, [Next] returns false and leaves every
    variable exactly as it is at that moment, whatever the snapshots of
    the choice points say. *)
Theorem Next_exhausted_changes_no_binding :
  forall fuel pr c h,
    exhausted c = true ->
    depth c <= fuel ->
    Results_Next (S fuel) (mkResults pr (Some c) None) h
    = Done ((false, mkResults pr None None), h).
Proof.
  intros fuel pr c h Hex Hd.
  change (Results_Next (S fuel) (mkResults pr (Some c) None) h)
    with (Next_loop (S fuel) (mkResults pr (Some c) None) h).
  rewrite Next_loop_exhausted; [reflexivity|]. simpl. auto.
Qed.

(** A choice point for [f(X, 3)] whose snapshot says that [X] was unbound,
    run on a heap where [X] is bound to [1]: the binding stays. *)
Lemma Next_exhausted_changes_no_binding_witness :
  Results_Next 2
    (mkResults (Some f_prog)
       (Some (mkChoicepoint None ("f", [Var 0; Integer 3]) None []
                {[ 0 := None ]}))
       None)
    (mkHeap [mkVariable "X" (Some (Integer 1))]
            [mkGoal (Compound "f" [Var 0; Integer 3]) None])
  = Done ((false, mkResults (Some f_prog) None None),
          mkHeap [mkVariable "X" (Some (Integer 1))]
                 [mkGoal (Compound "f" [Var 0; Integer 3]) None]).
Proof.
  apply (Next_exhausted_changes_no_binding 1).
  - reflexivity.
  - simpl. lia.
Defined.





(** The same query against [f(a, 1). f(b, 2).] with [a] for [3], on its
    second [Next]: the last candidate [f(b, 2)] fails on [a] against [b]
    right after the reset, so [X], bound to [1] by the first solution, is
    unbound again. *)
Example Next_false_after_a_trial_that_binds_nothing :
  Results_Next 2
    (mkResults None
       (Some (mkChoicepoint None ("f", [Atom "a"; Var 0]) None
                [Fact "f" [Atom "b"; Integer 2]] {[ 0 := None ]})) None)
    (mkHeap [mkVariable "X" (Some (Integer 1))] [])
  = Done ((false, mkResults None None None),
          mkHeap [mkVariable "X" None] []).
Proof. reflexivity. Qed.

(** ** Copying a rule *)

(** C3. Calling [r(X) :- a(X), b(X), c(X).] with one argument matches,
    but the body it returns has only the two goals [a(X'), b(X')], and
    the rule's own body has been rewritten: its third goal is now
    [c(X')] over the fresh variable [X'] (address 2). *)
Theorem Rule_Call_three_goals_truncates_and_mutates :
  exists body h,
    (forall k,
        Rule_Call (10 + k) r3_rule [Var 1] r3_heap = Done ((Some body, true), h))
    /\ goalTerms 10 h (Some body)
       = Some [Compound "a" [Var 2]; Compound "b" [Var 2]]
    /\ goalTerms 10 r3_heap (rbody r3_rule)
       = Some [Compound "a" [Var 0]; Compound "b" [Var 0]; Compound "c" [Var 0]]
    /\ goalTerms 10 h (rbody r3_rule)
       = Some [Compound "a" [Var 0]; Compound "b" [Var 0]; Compound "c" [Var 2]].
Proof.
  do 2 eexists. split.
  - intros k.
    apply (le_M_Done (Call 10 (RuleClause r3_rule) [Var 1])
                     (Call (10 + k) (RuleClause r3_rule) [Var 1])).
    + apply Call_mono. lia.
    + vm_compute. reflexivity.
  - repeat split.
Qed.

(** ** Unifying two variables twice *)

(** C4. On two distinct unbound variables, [X.Unify(Y)] returns true and
    binds [X] to [Y]; the immediately repeated [X.Unify(Y)] returns true
    again and performs a new binding, of [Y] to [X]. *)
Theorem Unify_repeated_binds_again :
  forall fuel,
    Unify (S fuel) (Var 0) (Var 1) xy_heap
    = Done (true, mkHeap [mkVariable "X" (Some (Var 1)); mkVariable "Y" None] [])
    /\ Unify (S fuel) (Var 0) (Var 1)
         (mkHeap [mkVariable "X" (Some (Var 1)); mkVariable "Y" None] [])
       = Done (true, xy_cycle)
    /\ valueOf (mkHeap [mkVariable "X" (Some (Var 1)); mkVariable "Y" None] []) 1
       = None
    /\ valueOf xy_cycle 1 = Some (Var 0).
Proof.
  intros fuel. repeat split.
Qed.

Lemma derefLoop_xy_cycle fuel :
  derefLoop fuel (Some (Var 0)) xy_cycle = Spin
  /\ derefLoop fuel (Some (Var 1)) xy_cycle = Spin.
Proof.
  induction fuel as [|fuel [IH0 IH1]]; [split; reflexivity|].
  split; simpl; unfold bind; simpl; assumption.
Qed.

(** C5. After [X.Unify(Y)] has run twice on two unbound variables, the
    bindings form the cycle [X -> Y -> X], and [X.Value()] does not
    return: the dereferencing loop outlasts every fuel. *)
Theorem Unify_twice_makes_cycle_Value_spins :
  (b1 <- Unify 1 (Var 0) (Var 1);; b2 <- Unify 1 (Var 0) (Var 1);;
   ret (b1, b2)) xy_heap = Done ((true, true), xy_cycle)
  /\ valueOf xy_cycle 0 = Some (Var 1)
  /\ valueOf xy_cycle 1 = Some (Var 0)
  /\ forall fuel, Value fuel 0 xy_cycle = Spin.
Proof.
  repeat split.
  intros fuel. unfold Value, bind. simpl.
  apply (derefLoop_xy_cycle fuel).
Qed.

(** ** The singletons on the right-hand side *)

(** C6. An atom or a compound unified with the anonymous variable or with
    the cut marker on the right returns false (the opposite order
    returns true). *)
Theorem Unify_singleton_on_the_right_fails :
  forall fuel a f args h,
    Unify (S fuel) (Atom a) AnonVariable h = Done (false, h)
    /\ Unify (S fuel) (Compound f args) AnonVariable h = Done (false, h)
    /\ Unify (S fuel) (Atom a) Cut h = Done (false, h)
    /\ Unify (S fuel) (Compound f args) Cut h = Done (false, h)
    /\ Unify (S fuel) AnonVariable (Atom a) h = Done (true, h)
    /\ Unify (S fuel) Cut (Compound f args) h = Done (true, h).
Proof.
  intros. repeat split.
Qed.

(** ** Atom goals *)

(** C7. A goal whose head is an atom is not callable: creating its choice
    point reports [TypeErr{"callable", a}], for every program. *)
Theorem choicepoint_atom_head_is_TypeErr :
  forall fuel pr a bt h,
    (g <- NewGoal (Atom a) [];; Prog_choicepoint (S fuel) pr (Some g) bt) h
    = Done ((None, Some (TypeErr "callable" (Atom a))),
            mkHeap (hvars h) (hgoals h ++ [mkGoal (Atom a) None])).
Proof.
  intros fuel pr a bt h.
  unfold NewGoal, Prog_choicepoint, bind, allocGoal, getGoal, ret; simpl.
  rewrite list_lookup_middle by reflexivity. reflexivity.
Qed.

(** ** The type-test builtins *)

(** C10. On every one-element argument list, [var/1] and [nonvar/1] index
    the slice at position 1 and panic. *)
Theorem Var1_Nonvar1_index_out_of_range :
  forall t h,
    call Var1 [t] h = Panic "index out of range"
    /\ call Nonvar1 [t] h = Panic "index out of range".
Proof.
  intros t h. split; reflexivity.
Qed.

(** * Further properties of the code *)

(** ** The type-test builtins never match *)

(** X1. Each of [var/1], [nonvar/1], [integer/1] and [float/1] panics
    on every argument list of length 1 and otherwise returns no body and
    [matches = false] without touching the heap: none of them ever
    reports a match. *)
Theorem type_tests_never_match :
  Forall (fun b : builtin =>
            forall args h,
              call b args h
              = if Nat.eqb (length args) 1
                then Panic "index out of range"
                else Done ((None, false), h))
         [Var1; Nonvar1; Integer1; Float1].
Proof.
  repeat constructor; intros args h;
    destruct args as [|a [|a' args]]; reflexivity.
Qed.

(** ** Invariants of computations *)

Section Invariants.
Variable R : Heap -> Heap -> Prop.
Hypothesis R_refl : forall h, R h h.
Hypothesis R_trans : forall h1 h2 h3, R h1 h2 -> R h2 h3 -> R h1 h3.

Lemma inv_ret {A} (a : A) : inv_M R (ret a).
Proof. intros h a' h' H. inversion H. apply R_refl. Qed.

Lemma inv_panic {A} msg : inv_M R (@panic A msg).
Proof. intros h a h' H. discriminate. Qed.

Lemma inv_spin {A} : inv_M R (@spin A).
Proof. intros h a h' H. discriminate. Qed.

Lemma inv_bind {A B} (m : M A) (k : A -> M B) :
  inv_M R m -> (forall a, inv_M R (k a)) -> inv_M R (bind m k).
Proof.
  intros Hm Hk h b h' H. unfold bind in H.
  destruct (m h) as [[a h1]| |] eqn:E; try discriminate.
  eapply R_trans; [apply (Hm _ _ _ E)|apply (Hk _ _ _ _ H)].
Qed.

Lemma inv_getVar_bind {B} v (k : VariableCell -> M B) :
  (forall c h b h', hvars h !! v = Some c -> k c h = Done (b, h') -> R h h') ->
  inv_M R (bind (getVar v) k).
Proof.
  intros Hk h b h' H. unfold bind, getVar in H.
  destruct (hvars h !! v) as [c|] eqn:E; [|discriminate].
  apply (Hk c h b h' E H).
Qed.

Lemma inv_getGoal_bind {B} g (k : Goal -> M B) :
  (forall n h b h', hgoals h !! g = Some n -> k n h = Done (b, h') -> R h h') ->
  inv_M R (bind (getGoal g) k).
Proof.
  intros Hk h b h' H. unfold bind, getGoal in H.
  destruct (hgoals h !! g) as [n|] eqn:E; [|discriminate].
  apply (Hk n h b h' E H).
Qed.

Lemma inv_index_bind {B} l i (k : Term -> M B) :
  (forall t, l !! i = Some t -> inv_M R (k t)) ->
  inv_M R (bind (index l i) k).
Proof.
  intros Hk h b h' H. unfold bind, index in H.
  destruct (l !! i) as [t|] eqn:E; [|discriminate].
  apply (Hk t eq_refl h b h' H).
Qed.

Lemma inv_rangeAll (body : nat -> Term -> M bool) :
  (forall i arg, inv_M R (body i arg)) ->
  forall l i, inv_M R (rangeAll body i l).
Proof.
  intros Hb l. induction l as [|arg l IH]; intros i; simpl.
  - apply inv_ret.
  - apply inv_bind; [apply Hb|]. intros [|]; [apply IH|apply inv_ret].
Qed.
End Invariants.

Lemma same_shape_refl h : same_shape h h.
Proof. split; reflexivity. Qed.

Lemma same_shape_trans h1 h2 h3 :
  same_shape h1 h2 -> same_shape h2 h3 -> same_shape h1 h3.
Proof. intros [A B] [C D]. split; congruence. Qed.

Lemma binds_only_refl h : binds_only h h.
Proof. split; [apply same_shape_refl|]. intros v t H. exact H. Qed.

Lemma binds_only_trans h1 h2 h3 :
  binds_only h1 h2 -> binds_only h2 h3 -> binds_only h1 h3.
Proof.
  intros [A B] [C D]. split; [eapply same_shape_trans; eauto|].
  intros v t H. apply D, B, H.
Qed.

Lemma map_name_alter v t (l : list VariableCell) :
  map name (alter (fun c => mkVariable (name c) t) v l) = map name l.
Proof.
  revert v. induction l as [|c l IH]; intros [|v]; simpl; try reflexivity.
  f_equal. apply IH.
Qed.

Lemma setValue_same_shape v t h u h' :
  setValue v t h = Done (u, h') -> same_shape h h'.
Proof.
  intros H. inversion H; subst. split; simpl; [reflexivity|].
  apply map_name_alter.
Qed.

Lemma valueOf_setValue_eq v t h u h' :
  setValue v t h = Done (u, h') -> v < length (hvars h) -> valueOf h' v = t.
Proof.
  intros H Hlt. inversion H; subst. unfold valueOf; simpl.
  rewrite list_lookup_alter_eq.
  apply lookup_lt_is_Some_2 in Hlt. destruct Hlt as [c Hc]. rewrite Hc.
  reflexivity.
Qed.

Lemma valueOf_setValue_ne v w t h u h' :
  setValue v t h = Done (u, h') -> v <> w -> valueOf h' w = valueOf h w.
Proof.
  intros H Hne. inversion H; subst. unfold valueOf; simpl.
  rewrite list_lookup_alter_ne by exact Hne. reflexivity.
Qed.

Lemma setValue_unbound_binds_only v t h c u h' :
  hvars h !! v = Some c -> value c = None ->
  setValue v t h = Done (u, h') -> binds_only h h'.
Proof.
  intros Hc Hv H. split; [eapply setValue_same_shape, H|].
  intros w t' Hw. destruct (decide (v = w)) as [->|Hne].
  - unfold valueOf in Hw. rewrite Hc, Hv in Hw. discriminate.
  - rewrite (valueOf_setValue_ne _ _ _ _ _ _ H Hne). exact Hw.
Qed.

Lemma Unify_binds_only fuel :
  forall t1 t2, inv_M binds_only (Unify fuel t1 t2).
Proof.
  pose proof binds_only_refl as Hr. pose proof binds_only_trans as Ht.
  induction fuel as [|fuel IH]; intros t1 t2; [apply inv_spin|].
  assert (Hvar : forall v t, plain t = true \/ t = AnonVariable \/ t = Cut ->
            inv_M binds_only
              (c <- getVar v;;
               match value c with
               | None => setValue v (Some t);;; ret true
               | Some t' => Unify fuel t' t
               end)).
  { intros v t _. apply inv_getVar_bind. intros c h b h' Hc H.
    destruct (value c) as [t'|] eqn:Hv; [apply (IH _ _ _ _ _ H)|].
    unfold bind in H. destruct (setValue v (Some t) h) as [[u h1]| |] eqn:E;
      try discriminate.
    inversion H; subst. eapply setValue_unbound_binds_only; eauto. }
  destruct t1 as [a|i|f|v|f args| |].
  - destruct t2; simpl; try apply (inv_ret _ Hr); apply IH.
  - destruct t2; simpl; try apply (inv_ret _ Hr); apply IH.
  - destruct t2; simpl; try apply (inv_ret _ Hr); apply IH.
  - destruct t2 as [a|i|f|v2|f args| |]; simpl;
      try (apply Hvar; simpl; auto; fail).
    destruct (v =? v2); [apply (inv_ret _ Hr)|].
    apply inv_getVar_bind. intros c h b h' Hc H.
    destruct (value c) as [t'|] eqn:Hv.
    + revert H. apply inv_getVar_bind. clear h b h' Hc.
      intros c2 h b h' Hc2 H.
      destruct (value c2) as [t2'|] eqn:Hv2; [apply (IH _ _ _ _ _ H)|].
      unfold bind in H.
      destruct (setValue v2 (Some (Var v)) h) as [[u h1]| |] eqn:E;
        try discriminate.
      inversion H; subst. eapply setValue_unbound_binds_only; eauto.
    + unfold bind in H.
      destruct (setValue v (Some (Var v2)) h) as [[u h1]| |] eqn:E;
        try discriminate.
      inversion H; subst. eapply setValue_unbound_binds_only; eauto.
  - destruct t2 as [a|i|f2|v2|g args2| |]; simpl;
      try apply (inv_ret _ Hr); try apply IH.
    destruct (negb (String.eqb f g) || negb (length args =? length args2));
      [apply (inv_ret _ Hr)|].
    apply (inv_rangeAll _ Hr Ht). intros i arg.
    apply (inv_index_bind _). intros t _. apply IH.
  - simpl. apply (inv_ret _ Hr).
  - simpl. apply (inv_ret _ Hr).
Qed.

(** ** Unification only adds bindings *)

(** X2. Whatever [t1.Unify(t2)] returns, it has left the goal nodes and
    the set and names of the variables as they were, and every variable
    that was bound before still holds the same value: unification only
    ever binds unbound variables. *)
Theorem Unify_only_binds_unbound_variables :
  forall fuel t1 t2 h b h',
    Unify fuel t1 t2 h = Done (b, h') ->
    hgoals h' = hgoals h
    /\ map name (hvars h') = map name (hvars h)
    /\ forall v t, valueOf h v = Some t -> valueOf h' v = Some t.
Proof.
  intros fuel t1 t2 h b h' H.
  destruct (Unify_binds_only fuel t1 t2 h b h' H) as [[A B] C]. auto.
Qed.

(** [f(X, 2)] against [f(1, 3)]: the call fails after binding [X]. *)
Lemma Unify_only_binds_unbound_variables_witness :
  hgoals (mkHeap [mkVariable "X" (Some (Integer 1)); mkVariable "Y" None] [])
  = hgoals xy_heap
  /\ map name (hvars (mkHeap [mkVariable "X" (Some (Integer 1));
                              mkVariable "Y" None] []))
     = map name (hvars xy_heap)
  /\ forall v t,
       valueOf xy_heap v = Some t ->
       valueOf (mkHeap [mkVariable "X" (Some (Integer 1));
                        mkVariable "Y" None] []) v = Some t.
Proof.
  apply (Unify_only_binds_unbound_variables 3
           (Compound "f" [Var 0; Integer 2])
           (Compound "f" [Integer 1; Integer 3]) xy_heap false).
  reflexivity.
Defined.

(** ** Dereferencing *)

Lemma derefLoop_result fuel :
  forall t h r h',
    derefLoop fuel t h = Done (r, h') ->
    h' = h /\ forall w, r <> Some (Var w).
Proof.
  induction fuel as [|fuel IH]; intros t h r h' H; [discriminate|].
  simpl in H. destruct t as [[a|i|f|v|f args| |]|];
    try (inversion H; subst; split; [reflexivity|intros w; discriminate]).
  unfold bind, getVar in H. destruct (hvars h !! v) as [c|]; [|discriminate].
  apply IH in H. exact H.
Qed.

(** X3. [v.Value()] only reads the heap, and what it returns is never a
    variable: it is nil or a term of another kind. *)
Theorem Value_returns_no_variable :
  forall fuel v h r h',
    Value fuel v h = Done (r, h') ->
    h' = h /\ forall w, r <> Some (Var w).
Proof.
  intros fuel v h r h' H. unfold Value, bind, getVar in H.
  destruct (hvars h !! v) as [c|]; [|discriminate].
  apply derefLoop_result in H. exact H.
Qed.

(** [X] bound to [Y], [Y] bound to [foo]. *)
Lemma Value_returns_no_variable_witness :
  mkHeap [mkVariable "X" (Some (Var 1)); mkVariable "Y" (Some (Atom "foo"))] []
  = mkHeap [mkVariable "X" (Some (Var 1)); mkVariable "Y" (Some (Atom "foo"))] []
  /\ forall w, Some (Atom "foo") <> Some (Var w).
Proof.
  apply (Value_returns_no_variable 2 0
           (mkHeap [mkVariable "X" (Some (Var 1));
                    mkVariable "Y" (Some (Atom "foo"))] [])).
  reflexivity.
Defined.

(** The compound a dereferenced value stands for, if any. *)
Lemma derefLoop_Callable fuel :
  forall t h r h',
    derefLoop fuel (Some t) h = Done (r, h') ->
    Callable fuel t h
    = Done (match r with
            | Some (Compound f args) => Some (f, args)
            | _ => None
            end, h).
Proof.
  induction fuel as [|fuel IH]; intros t h r h' H; [discriminate|].
  simpl in H. destruct t as [a|i|f|v|f args| |];
    try (inversion H; subst; reflexivity).
  simpl. unfold bind, getVar in *.
  destruct (hvars h !! v) as [c|]; [|discriminate].
  destruct (value c) as [t'|].
  - apply IH in H. exact H.
  - destruct fuel; [discriminate|]. inversion H; subst. reflexivity.
Qed.

(** X4. A variable is callable exactly when its [Value()] is a compound:
    whenever [v.Value()] returns [r], [v.Callable()] returns that compound
    if [r] is one and nil otherwise. *)
Theorem Callable_of_variable_follows_Value :
  forall fuel v h r h',
    Value fuel v h = Done (r, h') ->
    Callable (S fuel) (Var v) h
    = Done (match r with
            | Some (Compound f args) => Some (f, args)
            | _ => None
            end, h).
Proof.
  intros fuel v h r h' H. simpl. unfold Value, bind, getVar in *.
  destruct (hvars h !! v) as [c|]; [|discriminate].
  destruct (value c) as [t'|].
  - apply derefLoop_Callable in H. exact H.
  - destruct fuel; [discriminate|]. inversion H; subst. reflexivity.
Qed.

(** [X] bound to [Y], [Y] bound to [likes(eric, beer)]. *)
Lemma Callable_of_variable_follows_Value_witness :
  Callable 3 (Var 0)
    (mkHeap [mkVariable "X" (Some (Var 1));
             mkVariable "Y" (Some (Compound "likes" [Atom "eric"; Atom "beer"]))]
            [])
  = Done (Some ("likes", [Atom "eric"; Atom "beer"]),
          mkHeap [mkVariable "X" (Some (Var 1));
                  mkVariable "Y"
                    (Some (Compound "likes" [Atom "eric"; Atom "beer"]))] []).
Proof.
  apply (Callable_of_variable_follows_Value 2 0 _
           (Some (Compound "likes" [Atom "eric"; Atom "beer"]))
           (mkHeap [mkVariable "X" (Some (Var 1));
                    mkVariable "Y"
                      (Some (Compound "likes" [Atom "eric"; Atom "beer"]))] [])).
  reflexivity.
Defined.

(** ** Unifying a term with itself *)

Lemma SFeqb_refl f : is_nan f = false -> SFeqb f f = true.
Proof.
  destruct f as [s|s| |s m e]; simpl; intros H; try discriminate;
    unfold SFeqb, SFcompare.
  - reflexivity.
  - destruct s; reflexivity.
  - destruct s; rewrite Z.compare_refl, Pos.compare_cont_refl; reflexivity.
Qed.

Lemma rangeAll_self (U : Term -> Term -> M bool) h :
  forall suf pre,
    Forall (fun t => U t t h = Done (true, h)) suf ->
    rangeAll (fun i arg => ci <- index (pre ++ suf) i;; U ci arg)
      (length pre) suf h
    = Done (true, h).
Proof.
  induction suf as [|t suf IH]; intros pre HF; [reflexivity|].
  inversion HF as [|? ? Ht HF']; subst. simpl. unfold bind at 1.
  unfold index. rewrite list_lookup_middle by reflexivity.
  unfold bind at 1. unfold ret at 1. rewrite Ht.
  specialize (IH (pre ++ [t]) HF').
  rewrite <- app_assoc in IH. simpl in IH.
  rewrite length_app in IH. simpl in IH.
  replace (length pre + 1) with (S (length pre)) in IH by lia.
  exact IH.
Qed.

(** X5. A term without variables and without the float NaN unifies with
    itself, and doing so changes nothing on the heap (the fuel needed is
    the nesting depth of the term). *)
Theorem Unify_reflexive_on_rigid_terms :
  forall t fuel h,
    rigid t = true ->
    Term_depth t <= fuel ->
    Unify fuel t t h = Done (true, h).
Proof.
  induction t as [a|i|f|v|f args IH| |] using Term_nested_ind;
    intros fuel h Hr Hd; simpl in Hr, Hd;
    (destruct fuel as [|fuel]; [lia|]); simpl.
  - rewrite String.eqb_refl. reflexivity.
  - rewrite Z.eqb_refl. reflexivity.
  - rewrite SFeqb_refl; [reflexivity|]. destruct (is_nan f); [discriminate|reflexivity].
  - discriminate.
  - rewrite String.eqb_refl, Nat.eqb_refl. simpl.
    apply (rangeAll_self (Unify fuel) h args []).
    assert (Hle : Forall (fun k => k <= fuel) (map Term_depth args)).
    { apply list_max_le. lia. }
    clear Hd. induction IH as [|t args Ht _ IHargs]; [constructor|].
    simpl in Hr. apply andb_prop in Hr. destruct Hr as [Hr1 Hr2].
    inversion Hle; subst.
    constructor; [apply Ht; assumption|apply IHargs; assumption].
  - reflexivity.
  - reflexivity.
Qed.

Lemma Unify_reflexive_on_rigid_terms_witness :
  Unify 2 (Compound "likes" [Atom "bob"; Integer 3; AnonVariable])
          (Compound "likes" [Atom "bob"; Integer 3; AnonVariable]) xy_heap
  = Done (true, xy_heap).
Proof.
  apply Unify_reflexive_on_rigid_terms.
  - reflexivity.
  - simpl. lia.
Defined.

(** ** Binding an unbound variable *)

(** X6. Unifying an unbound variable with an atom, number or compound
    assigns that term to the variable and returns true, whichever of the
    two is the receiver. *)
Theorem Unify_binds_unbound_variable_either_order :
  forall fuel v t h c,
    plain t = true ->
    hvars h !! v = Some c ->
    value c = None ->
    Unify (S fuel) (Var v) t h = (setValue v (Some t);;; ret true) h
    /\ Unify (S (S fuel)) t (Var v) h = (setValue v (Some t);;; ret true) h.
Proof.
  intros fuel v t h c Hp Hc Hv.
  assert (H1 : forall n, Unify (S n) (Var v) t h
                         = (setValue v (Some t);;; ret true) h).
  { intros n. destruct t; try discriminate; simpl;
      unfold bind at 1; unfold getVar; rewrite Hc, Hv; reflexivity. }
  split; [apply H1|].
  destruct t; try discriminate; simpl; apply (H1 fuel).
Qed.

Lemma Unify_binds_unbound_variable_either_order_witness :
  Unify 1 (Var 0) (Atom "pizza") xy_heap
  = (setValue 0 (Some (Atom "pizza"));;; ret true) xy_heap
  /\ Unify 2 (Atom "pizza") (Var 0) xy_heap
     = (setValue 0 (Some (Atom "pizza"));;; ret true) xy_heap.
Proof.
  apply (Unify_binds_unbound_variable_either_order 0 0 (Atom "pizza") xy_heap
           (mkVariable "X" None)); reflexivity.
Defined.

(** ** The program database *)

Lemma Prog_match_Add_any (p : Prog) (c : Clause) (s : sig) :
  default [] (clauses (Prog_Add c p) !! s)
  = default [] (clauses p !! s) ++ (if decide (Signature c = s) then [c] else []).
Proof.
  unfold Prog_Add; simpl. destruct (decide (Signature c = s)) as [->|Hne].
  - rewrite lookup_insert_eq. reflexivity.
  - rewrite lookup_insert_ne by exact Hne. rewrite app_nil_r. reflexivity.
Qed.

(** X7. After [p.Add(clause)], [match] for a compound of the clause's
    signature returns the former list with the clause appended at the end,
    and [match] for every other signature returns what it returned
    before. *)
Theorem Prog_match_after_Add :
  forall p c f args,
    Prog_match (Prog_Add c p) f args
    = Prog_match p f args
      ++ (if decide (Signature c = (f, Z.of_nat (length args)))
          then [c] else []).
Proof.
  intros p c f args. unfold Prog_match. apply Prog_match_Add_any.
Qed.

Lemma fold_Add_lookup (cls : list Clause) :
  forall (p : Prog) (s : sig),
    default [] (clauses (fold_left (fun p c => Prog_Add c p) cls p) !! s)
    = default [] (clauses p !! s) ++ filter (fun c => Signature c = s) cls.
Proof.
  induction cls as [|c cls IH]; intros p s; simpl.
  - rewrite app_nil_r. reflexivity.
  - rewrite IH, Prog_match_Add_any, filter_cons.
    destruct (decide (Signature c = s)); simpl.
    + rewrite <- app_assoc. reflexivity.
    + rewrite app_nil_r. reflexivity.
Qed.

(** X8. For a program built by [NewProg(clauses...)], [match] returns
    exactly the clauses whose signature (functor and arity) is that of the
    compound, in the order in which they were given; it is the empty list
    when there is none. *)
Theorem Prog_match_NewProg_is_filter_in_order :
  forall cls f args,
    Prog_match (NewProg cls) f args
    = filter (fun c => Signature c = (f, Z.of_nat (length args))) cls.
Proof.
  intros cls f args. unfold Prog_match, NewProg.
  rewrite fold_Add_lookup. simpl. rewrite lookup_empty. reflexivity.
Qed.

(** ** The cut loop *)

(** X9. The cut loop only reads the heap; it returns the choice point as
    it was, or with nothing but its [backtrack] link cleared (candidate
    queue, fact, remaining goals and snapshot are never touched); and the
    goal it returns is nil or a node whose head is not the cut marker. *)
Theorem cut_loop_skips_leading_cuts :
  forall fuel c compound h c' compound' h',
    cut_loop fuel c compound h = Done ((c', compound'), h') ->
    h' = h
    /\ (c' = c \/ c' = set_backtrack c None)
    /\ match compound' with
       | None => True
       | Some g => exists n, hgoals h !! g = Some n /\ head n <> Cut
       end.
Proof.
  induction fuel as [|fuel IH]; intros c compound h c' compound' h' H;
    [discriminate|].
  simpl in H. destruct compound as [g|].
  - unfold bind, getGoal in H.
    destruct (hgoals h !! g) as [n|] eqn:E; [|discriminate].
    destruct (head n) eqn:Hh;
      try (inversion H; subst; split; [reflexivity|]; split; [auto|];
           exists n; split; [exact E|]; rewrite Hh; discriminate).
    apply IH in H. destruct H as (-> & Hc & Hg).
    split; [reflexivity|]. split; [|exact Hg].
    right. destruct Hc as [->| ->]; reflexivity.
  - inversion H; subst. auto.
Qed.

(** The goal list [!, !, a] (node 0) with a choice point that has a parent. *)
Lemma cut_loop_skips_leading_cuts_witness :
  mkHeap [] [mkGoal Cut (Some 1); mkGoal Cut (Some 2); mkGoal (Atom "a") None]
  = mkHeap [] [mkGoal Cut (Some 1); mkGoal Cut (Some 2); mkGoal (Atom "a") None]
  /\ (mkChoicepoint None ("f", []) None [Fact "f" []] ∅
      = mkChoicepoint
          (Some (mkChoicepoint None ("g", []) None [] ∅))
          ("f", []) None [Fact "f" []] ∅
      \/ mkChoicepoint None ("f", []) None [Fact "f" []] ∅
         = set_backtrack
             (mkChoicepoint
                (Some (mkChoicepoint None ("g", []) None [] ∅))
                ("f", []) None [Fact "f" []] ∅) None)
  /\ exists n,
       hgoals (mkHeap [] [mkGoal Cut (Some 1); mkGoal Cut (Some 2);
                          mkGoal (Atom "a") None]) !! 2 = Some n
       /\ head n <> Cut.
Proof.
  apply (cut_loop_skips_leading_cuts 3
           (mkChoicepoint
              (Some (mkChoicepoint None ("g", []) None [] ∅))
              ("f", []) None [Fact "f" []] ∅)
           (Some 0)
           (mkHeap [] [mkGoal Cut (Some 1); mkGoal Cut (Some 2);
                       mkGoal (Atom "a") None])
           (mkChoicepoint None ("f", []) None [Fact "f" []] ∅)
           (Some 2)).
  reflexivity.
Defined.

(** ** Advancing a choice point *)

Lemma next_loop_consumes fuel c :
  forall queue h g m rest h',
    next_loop fuel c queue h = Done ((g, m, rest), h') ->
    is_suffix rest queue
    /\ (m = false -> rest = [] /\ g = None)
    /\ (m = true -> length rest < length queue).
Proof.
  induction queue as [|clause queue IH]; intros h g m rest h' H; simpl in H.
  - inversion H; subst. split; [exists []; reflexivity|].
    split; [auto|discriminate].
  - unfold bind in H.
    destruct (choicepoint_resetVars fuel c h) as [[u h1]| |]; try discriminate.
    destruct (Call fuel clause (snd (fact c)) h1) as [[[body matched] h2]| |];
      try discriminate.
    simpl in H. destruct matched; simpl in H.
    + assert (Hm : m = true /\ rest = queue).
      { destruct body as [result|].
        - destruct (lastGoal fuel result h2) as [[tl h3]| |]; try discriminate.
          inversion H; subst. auto.
        - inversion H; subst. auto. }
      destruct Hm as [-> ->]. split; [exists [clause]; reflexivity|].
      split; [discriminate|]. intros _. simpl. lia.
    + apply IH in H. destruct H as ([pre ->] & Hf & Ht).
      split; [exists (clause :: pre); reflexivity|].
      split; [exact Hf|]. intros Hm. specialize (Ht Hm).
      rewrite length_app in *. simpl. rewrite length_app. lia.
Qed.

(** X10. [cp.next()] only consumes candidates: whatever it returns, the
    queue left in the choice point is a suffix of the queue it started
    with and no other field has changed; a match has removed at least one
    candidate, and "no match" is only reported with the queue empty and a
    nil goal. *)
Theorem choicepoint_next_only_consumes_candidates :
  forall fuel c h g m c' h',
    choicepoint_next fuel c h = Done ((g, m, c'), h') ->
    backtrack c' = backtrack c /\ fact c' = fact c
    /\ remaining c' = remaining c /\ state c' = state c
    /\ is_suffix (cp_clauses c') (cp_clauses c)
    /\ (m = false -> cp_clauses c' = [] /\ g = None)
    /\ (m = true -> length (cp_clauses c') < length (cp_clauses c)).
Proof.
  intros fuel c h g m c' h' H. unfold choicepoint_next, bind in H.
  destruct (next_loop fuel c (cp_clauses c) h) as [[[[g0 m0] rest] h1]| |] eqn:E;
    try discriminate.
  inversion H; subst. simpl.
  apply next_loop_consumes in E. destruct E as (A & B & C).
  repeat split; auto; apply B; assumption.
Qed.

(** A choice point for [f(3)] with candidates [f(1). f(2).]: no match. *)
Lemma choicepoint_next_only_consumes_candidates_witness :
  backtrack (mkChoicepoint None ("f", [Integer 3]) None [] ∅)
  = backtrack (mkChoicepoint None ("f", [Integer 3]) None
                 [Fact "f" [Integer 1]; Fact "f" [Integer 2]] ∅)
  /\ fact (mkChoicepoint None ("f", [Integer 3]) None [] ∅)
     = fact (mkChoicepoint None ("f", [Integer 3]) None
               [Fact "f" [Integer 1]; Fact "f" [Integer 2]] ∅)
  /\ remaining (mkChoicepoint None ("f", [Integer 3]) None [] ∅)
     = remaining (mkChoicepoint None ("f", [Integer 3]) None
                    [Fact "f" [Integer 1]; Fact "f" [Integer 2]] ∅)
  /\ state (mkChoicepoint None ("f", [Integer 3]) None [] ∅)
     = state (mkChoicepoint None ("f", [Integer 3]) None
                [Fact "f" [Integer 1]; Fact "f" [Integer 2]] ∅)
  /\ is_suffix (cp_clauses (mkChoicepoint None ("f", [Integer 3]) None [] ∅))
       (cp_clauses (mkChoicepoint None ("f", [Integer 3]) None
                      [Fact "f" [Integer 1]; Fact "f" [Integer 2]] ∅))
  /\ (false = false ->
      cp_clauses (mkChoicepoint None ("f", [Integer 3]) None [] ∅) = []
      /\ (None : option goalptr) = None)
  /\ (false = true ->
      length (cp_clauses (mkChoicepoint None ("f", [Integer 3]) None [] ∅))
      < length (cp_clauses (mkChoicepoint None ("f", [Integer 3]) None
                              [Fact "f" [Integer 1]; Fact "f" [Integer 2]] ∅))).
Proof.
  apply (choicepoint_next_only_consumes_candidates 3
           (mkChoicepoint None ("f", [Integer 3]) None
              [Fact "f" [Integer 1]; Fact "f" [Integer 2]] ∅)
           emptyHeap None false
           (mkChoicepoint None ("f", [Integer 3]) None [] ∅) emptyHeap).
  reflexivity.
Defined.

(** ** Queries and iteration *)

Lemma Prog_choicepoint_result fuel pr g bt h ncp e h' :
  Prog_choicepoint fuel pr (Some g) bt h = Done ((ncp, e), h') ->
  h' = h
  /\ exists n,
      hgoals h !! g = Some n
      /\ ((e = Some (TypeErr "callable" (head n)) /\ ncp = None)
          \/ (e = None
              /\ exists c prog,
                  ncp = Some c /\ pr = Some prog
                  /\ backtrack c = bt
                  /\ remaining c = tail n
                  /\ cp_clauses c
                     = Prog_match prog (fst (fact c)) (snd (fact c)))).
Proof.
  intros H.
  split; [apply (Prog_choicepoint_preserves _ _ _ _ _ _ _ H)|].
  unfold Prog_choicepoint, bind in H. unfold getGoal at 1 in H.
  destruct (hgoals h !! g) as [n|] eqn:Hn; [|discriminate].
  exists n. split; [reflexivity|].
  destruct (Callable fuel (head n) h) as [[[[f args]|] h1]| |] eqn:HC;
    try discriminate.
  - destruct (visitVars fuel (Some g) _ _ h1) as [[st h2]| |] eqn:HV;
      try discriminate.
    apply Callable_preserves in HC. subst h1.
    assert (h2 = h) as ->.
    { apply (visitVars_preserves _) in HV; [exact HV|].
      intros v s0. apply preserves_bind; [apply preserves_getVar|].
      intros cell. apply preserves_ret. }
    unfold getGoal in H. rewrite Hn in H.
    destruct pr as [prog|]; [|discriminate].
    inversion H; subst. right. split; [reflexivity|].
    eexists. exists prog. repeat split.
  - inversion H; subst. left. auto.
Qed.

(** X11. [p.Query(c)] only reads the heap.  It either records
    [TypeErr{"callable", head}] for the head of the goal list, with no
    choice point and no program kept, or records no error and keeps the
    program and a root choice point that has no [backtrack] link, the tail
    of the goal list as remaining goals and, as candidates, exactly what
    [match] returns for its fact. *)
Theorem Query_reads_only_and_roots_the_search :
  forall fuel prog g h r h',
    Prog_Query fuel prog (Some g) h = Done (r, h') ->
    h' = h
    /\ exists n,
        hgoals h !! g = Some n
        /\ ((r = mkResults None None (Some (TypeErr "callable" (head n))))
            \/ (exists c,
                   r = mkResults (Some prog) (Some c) None
                   /\ backtrack c = None
                   /\ remaining c = tail n
                   /\ cp_clauses c
                      = Prog_match prog (fst (fact c)) (snd (fact c)))).
Proof.
  intros fuel prog g h r h' H. unfold Prog_Query, bind in H.
  destruct (Prog_choicepoint fuel (Some prog) (Some g) None h)
    as [[[ncp e] h1]| |] eqn:E; try discriminate.
  apply Prog_choicepoint_result in E.
  destruct E as (-> & n & Hn & [[-> ->]|(-> & c & prog' & -> & Hp & A & B & C)]).
  - simpl in H. inversion H; subst. split; [reflexivity|].
    exists n. split; [exact Hn|]. left. reflexivity.
  - simpl in H. inversion H; subst. inversion Hp; subst.
    split; [reflexivity|]. exists n. split; [exact Hn|]. right.
    exists c. auto.
Qed.

Lemma Query_reads_only_and_roots_the_search_witness :
  f_heap = f_heap
  /\ exists n,
      hgoals f_heap !! 0 = Some n
      /\ ((f_results 3 [Fact "f" [Integer 1; Integer 2]]
           = mkResults None None (Some (TypeErr "callable" (head n))))
          \/ (exists c,
                 f_results 3 [Fact "f" [Integer 1; Integer 2]]
                 = mkResults (Some f_prog) (Some c) None
                 /\ backtrack c = None
                 /\ remaining c = tail n
                 /\ cp_clauses c
                    = Prog_match f_prog (fst (fact c)) (snd (fact c)))).
Proof.
  apply (Query_reads_only_and_roots_the_search 3 f_prog 0 f_heap
           (f_results 3 [Fact "f" [Integer 1; Integer 2]]) f_heap).
  vm_compute. reflexivity.
Defined.

(** X12. A query whose goal is an unbound variable records
    [TypeErr{"callable", X}]; [Next] then returns false and the error
    stays, for every program and every heap the variable and the goal are
    allocated in. *)
Theorem Query_unbound_variable_is_TypeErr :
  forall fuel fuel' prog nm h,
    (x <- NewVariable nm;;
     q <- NewGoal (Var x) [];;
     r <- Prog_Query (S fuel) prog (Some q);;
     n <- Results_Next fuel' r;;
     ret (fst n, Results_Err (snd n))) h
    = Done ((false, Some (TypeErr "callable" (Var (length (hvars h))))),
            mkHeap (hvars h ++ [mkVariable nm None])
                   (hgoals h ++ [mkGoal (Var (length (hvars h))) None])).
Proof.
  intros fuel fuel' prog nm h.
  unfold NewVariable, NewGoal, Prog_Query, Prog_choicepoint.
  unfold bind, allocVar, allocGoal, NewGoal_loop, ret, getGoal; simpl.
  rewrite list_lookup_middle by reflexivity. simpl.
  unfold bind, getVar; simpl.
  rewrite list_lookup_middle by reflexivity. reflexivity.
Qed.

Lemma Prog_choicepoint_error_no_cp fuel pr c bt h ncp e h' :
  Prog_choicepoint fuel pr c bt h = Done ((ncp, e), h') ->
  (e = None -> is_Some ncp) /\ (e <> None -> ncp = None).
Proof.
  intros H. destruct c as [g|]; [|discriminate].
  apply Prog_choicepoint_result in H.
  destruct H as (_ & n & _ & [[-> ->]|(-> & c & prog & -> & _)]).
  - split; [discriminate|reflexivity].
  - split; [eauto|]. intros Hne. contradiction.
Qed.

Lemma Next_loop_result fuel :
  forall r h b r' h',
    err r = None ->
    Next_loop fuel r h = Done ((b, r'), h') ->
    p r' = p r
    /\ (b = true -> err r' = None /\ is_Some (cp r'))
    /\ (b = false -> cp r' = None).
Proof.
  induction fuel as [|fuel IH]; intros r h b r' h' He H; [discriminate|].
  rewrite Next_loop_S in H. destruct (cp r) as [c|] eqn:Hcp.
  - unfold bind in H.
    destruct (choicepoint_next (S fuel) c h) as [[[[compound matched] c1] h1]| |];
      try discriminate.
    destruct matched; cbn [negb] in H.
    + destruct (cut_loop (S fuel) c1 compound h1) as [[[c2 compound2] h2]| |];
        try discriminate.
      destruct compound2 as [g|].
      * destruct (Prog_choicepoint (S fuel) (p r) (Some g) (Some c2) h2)
          as [[[ncp e] h3]| |] eqn:E; try discriminate.
        cbn [fst snd] in H. apply Prog_choicepoint_error_no_cp in E.
        destruct E as [E1 E2]. destruct e as [e|].
        -- inversion H; subst. simpl. split; [reflexivity|].
           split; [discriminate|]. intros _. apply E2. discriminate.
        -- apply IH in H; [|reflexivity]. simpl in H. exact H.
      * inversion H; subst. simpl. split; [reflexivity|].
        split; [eauto|discriminate].
    + apply IH in H; [|exact He]. simpl in H. exact H.
  - inversion H; subst. split; [reflexivity|]. split; [discriminate|auto].
Qed.

(** X13. When [Next] returns true, no error is recorded before or after
    the call, the program is the same and a choice point is kept for the
    next call. *)
Theorem Next_true_means_no_error :
  forall fuel r h r' h',
    Results_Next fuel r h = Done ((true, r'), h') ->
    Results_Err r = None /\ Results_Err r' = None
    /\ is_Some (cp r') /\ p r' = p r.
Proof.
  intros fuel r h r' h' H. unfold Results_Next, Results_Err in *.
  destruct (err r) as [e|] eqn:He; [discriminate|].
  apply Next_loop_result in H; [|exact He]. destruct H as (Hp & Ht & _).
  destruct (Ht eq_refl) as [Hr Hc]. auto.
Qed.

(** [f(X, 2)] against [f(1, 2).]: the first [Next] returns true. *)
Lemma Next_true_means_no_error_witness :
  Results_Err (f_results 2 [Fact "f" [Integer 1; Integer 2]]) = None
  /\ Results_Err (f_results 2 []) = None
  /\ is_Some (cp (f_results 2 []))
  /\ p (f_results 2 []) = p (f_results 2 [Fact "f" [Integer 1; Integer 2]]).
Proof.
  apply (Next_true_means_no_error 3
           (f_results 2 [Fact "f" [Integer 1; Integer 2]]) f2_heap
           (f_results 2 [])
           (mkHeap [mkVariable "X" (Some (Integer 1))]
                   [mkGoal (Compound "f" [Var 0; Integer 2]) None])).
  vm_compute. reflexivity.
Defined.

(** X14. Exhaustion is final: once [Next] has returned false, every
    later [Next] returns false as well and changes nothing, neither in
    the results nor on the heap. *)
Theorem Next_false_is_final :
  forall fuel r h r' h' fuel2 h2,
    Results_Next fuel r h = Done ((false, r'), h') ->
    Results_Next (S fuel2) r' h2 = Done ((false, r'), h2).
Proof.
  intros fuel r h r' h' fuel2 h2 H. unfold Results_Next in H.
  destruct (err r) as [e|] eqn:He.
  - inversion H; subst. unfold Results_Next. rewrite He. reflexivity.
  - apply Next_loop_result in H; [|exact He]. destruct H as (_ & _ & Hf).
    specialize (Hf eq_refl). unfold Results_Next.
    destruct (err r'); [reflexivity|]. rewrite Next_loop_S, Hf. reflexivity.
Qed.

(** [f(X, 3)] against [f(1, 2).]: the first [Next] returns false. *)
Lemma Next_false_is_final_witness :
  Results_Next 1 (mkResults (Some f_prog) None None) f_heap
  = Done ((false, mkResults (Some f_prog) None None), f_heap).
Proof.
  apply (Next_false_is_final 3
           (f_results 3 [Fact "f" [Integer 1; Integer 2]]) f_heap
           (mkResults (Some f_prog) None None)
           (mkHeap [mkVariable "X" (Some (Integer 1))]
                   [mkGoal (Compound "f" [Var 0; Integer 3]) None])
           0 f_heap).
  vm_compute. reflexivity.
Defined.

(** ** Snapshots and their restoration *)

Lemma fold_assign_shape t vs :
  forall h, same_shape h (fold_left (assign t) vs h).
Proof.
  induction vs as [|x vs IH]; intros h; simpl; [apply same_shape_refl|].
  eapply same_shape_trans; [|apply IH].
  split; simpl; [reflexivity|apply map_name_alter].
Qed.

Lemma fold_assign_lookup t vs :
  forall h v,
    hvars (fold_left (assign t) vs h) !! v
    = if decide (v ∈ vs)
      then (fun c => mkVariable (name c) (t v)) <$> hvars h !! v
      else hvars h !! v.
Proof.
  unfold var in *. induction vs as [|x vs IH]; intros h v; simpl.
  - destruct (decide (v ∈ [])) as [H|_]; [|reflexivity].
    apply elem_of_nil in H. contradiction.
  - rewrite IH. unfold assign. cbn [hvars].
    destruct (decide (x = v)) as [->|Hne].
    + rewrite list_lookup_alter_eq.
      destruct (decide (v ∈ v :: vs)) as [_|Hn];
        [|exfalso; apply Hn, elem_of_cons; auto].
      destruct (decide (v ∈ vs)); destruct (hvars h !! v); reflexivity.
    + rewrite list_lookup_alter_ne by exact Hne.
      destruct (decide (v ∈ vs)) as [Hin|Hin];
        destruct (decide (v ∈ x :: vs)) as [Hin'|Hin']; try reflexivity.
      * exfalso. apply Hin', elem_of_cons. auto.
      * exfalso. apply elem_of_cons in Hin'. destruct Hin'; auto.
Qed.

Lemma visitVarsTerm_assign t0 :
  forall t h,
    visitVarsTerm t (fun v (_ : unit) => setValue v (t0 v)) tt h
    = Done (tt, fold_left (assign t0) (Term_vars t) h).
Proof.
  induction t as [a|i|f|v|f args IH| |] using Term_nested_ind; intros h;
    try reflexivity.
  rewrite visitVarsTerm_Compound. simpl Term_vars. revert h.
  induction IH as [|arg args Harg _ IHargs]; intros h; [reflexivity|].
  simpl. unfold bind. rewrite Harg, fold_left_app. apply IHargs.
Qed.

Lemma visitArgs_assign t0 args h :
  visitArgs args (fun v (_ : unit) => setValue v (t0 v)) tt h
  = Done (tt, fold_left (assign t0) (terms_vars args) h).
Proof.
  rewrite <- (visitVarsTerm_Compound "" args). apply visitVarsTerm_assign.
Qed.

Lemma goalTerms_ext fuel :
  forall h h' g, hgoals h' = hgoals h -> goalTerms fuel h' g = goalTerms fuel h g.
Proof.
  induction fuel as [|fuel IH]; intros h h' g E; [reflexivity|].
  simpl. destruct g as [a|]; [|reflexivity]. rewrite E.
  destruct (hgoals h !! a) as [n|]; [|reflexivity].
  rewrite (IH h h' _ E). reflexivity.
Qed.

Lemma goalTerms_mono n :
  forall m h g ts, n <= m -> goalTerms n h g = Some ts -> goalTerms m h g = Some ts.
Proof.
  induction n as [|n IH]; intros m h g ts Hle H; [discriminate|].
  destruct m as [|m]; [lia|]. simpl in *. destruct g as [a|]; [|exact H].
  destruct (hgoals h !! a) as [nd|]; [|discriminate].
  destruct (goalTerms n h (tail nd)) as [ts'|] eqn:E; [|discriminate].
  rewrite (IH m h _ ts'); [exact H|lia|exact E].
Qed.

Lemma visitVars_assign t0 fuel :
  forall g h ts,
    goalTerms fuel h g = Some ts ->
    visitVars fuel g (fun v (_ : unit) => setValue v (t0 v)) tt h
    = Done (tt, fold_left (assign t0) (terms_vars ts) h).
Proof.
  induction fuel as [|fuel IH]; intros g h ts H; [discriminate|].
  simpl in *. destruct g as [a|]; [|inversion H; reflexivity].
  unfold bind at 1. unfold getGoal at 1.
  destruct (hgoals h !! a) as [n|] eqn:Hn; [|discriminate].
  destruct (goalTerms fuel h (tail n)) as [ts'|] eqn:Hts; [|discriminate].
  inversion H; subst. unfold bind at 1. rewrite visitVarsTerm_assign.
  pose proof (fold_assign_shape t0 (Term_vars (head n)) h) as [Hg _].
  unfold bind, getGoal. rewrite Hg, Hn.
  unfold terms_vars. simpl. rewrite fold_left_app.
  apply IH. rewrite (goalTerms_ext _ h); [exact Hts|exact Hg].
Qed.

Lemma choicepoint_resetVars_assign fuel c h ts :
  goalTerms fuel h (remaining c) = Some ts ->
  choicepoint_resetVars fuel c h
  = Done (tt, fold_left (assign (fun v => default None (state c !! v)))
                (terms_vars (snd (fact c)) ++ terms_vars ts) h).
Proof.
  intros H. unfold choicepoint_resetVars, bind.
  rewrite (visitArgs_assign (fun v => default None (state c !! v))).
  rewrite fold_left_app. apply visitVars_assign.
  rewrite (goalTerms_ext _ h); [exact H|].
  apply (fold_assign_shape _ _ h).
Qed.

(** X15. When the remaining goals form a finite list, [cp.resetVars()]
    returns; it keeps the goal nodes and the set and names of the
    variables; every variable occurring in the arguments of the fact or in
    the remaining goals then holds the value recorded for it in the
    snapshot (unbound if the snapshot has no entry), and every other
    variable is left exactly as it was. *)
Theorem resetVars_writes_snapshot_back :
  forall fuel c h ts,
    goalTerms fuel h (remaining c) = Some ts ->
    exists h',
      choicepoint_resetVars fuel c h = Done (tt, h')
      /\ hgoals h' = hgoals h
      /\ map name (hvars h') = map name (hvars h)
      /\ (forall v,
             v ∈ terms_vars (snd (fact c)) ++ terms_vars ts ->
             v < length (hvars h) ->
             valueOf h' v = default None (state c !! v))
      /\ (forall v,
             v ∉ terms_vars (snd (fact c)) ++ terms_vars ts ->
             hvars h' !! v = hvars h !! v).
Proof.
  intros fuel c h ts H. eexists. split; [apply choicepoint_resetVars_assign, H|].
  destruct (fold_assign_shape (fun v => default None (state c !! v))
              (terms_vars (snd (fact c)) ++ terms_vars ts) h) as [A B].
  split; [exact A|]. split; [exact B|]. split.
  - intros v Hin Hlt. unfold valueOf. rewrite fold_assign_lookup.
    destruct (decide _) as [_|Hn]; [|contradiction].
    apply lookup_lt_is_Some_2 in Hlt. destruct Hlt as [cell Hc].
    unfold var in *. rewrite Hc. reflexivity.
  - intros v Hn. rewrite fold_assign_lookup.
    destruct (decide _) as [Hin|_]; [contradiction|reflexivity].
Qed.

(** A choice point for [f(X, 3)] with [X] snapshot as unbound, on a heap
    where [X] is bound to [1] and [Y] to [2]. *)
Lemma resetVars_writes_snapshot_back_witness :
  exists h',
    choicepoint_resetVars 1 (f_root 3 [])
      (mkHeap [mkVariable "X" (Some (Integer 1)); mkVariable "Y" (Some (Integer 2))]
              []) = Done (tt, h')
    /\ hgoals h' = []
    /\ map name (hvars h') = ["X"; "Y"]
    /\ (forall v,
           v ∈ terms_vars (snd (fact (f_root 3 []))) ++ terms_vars [] ->
           v < 2 ->
           valueOf h' v = default None (state (f_root 3 []) !! v))
    /\ (forall v,
           v ∉ terms_vars (snd (fact (f_root 3 []))) ++ terms_vars [] ->
           hvars h' !! v
           = [mkVariable "X" (Some (Integer 1));
              mkVariable "Y" (Some (Integer 2))] !! v).
Proof.
  apply (resetVars_writes_snapshot_back 1 (f_root 3 [])
           (mkHeap [mkVariable "X" (Some (Integer 1));
                    mkVariable "Y" (Some (Integer 2))] []) []).
  reflexivity.
Defined.

Lemma fold_snapshot_lookup (h : Heap) vs :
  forall (st : gmap var (option Term)) v,
    fold_left (fun st v => <[v := valueOf h v]> st) vs st !! v
    = if decide (v ∈ vs) then Some (valueOf h v) else st !! v.
Proof.
  induction vs as [|x vs IH]; intros st v; simpl.
  - destruct (decide (v ∈ [])) as [H|_]; [|reflexivity].
    apply elem_of_nil in H. contradiction.
  - rewrite IH. destruct (decide (v ∈ vs)) as [Hin|Hin].
    + destruct (decide (v ∈ x :: vs)) as [_|Hn]; [reflexivity|].
      exfalso. apply Hn, elem_of_cons. auto.
    + destruct (decide (x = v)) as [->|Hne].
      * rewrite lookup_insert_eq.
        destruct (decide (v ∈ v :: vs)) as [_|Hn]; [reflexivity|].
        exfalso. apply Hn, elem_of_cons. auto.
      * rewrite lookup_insert_ne by exact Hne.
        destruct (decide (v ∈ x :: vs)) as [Hin'|_]; [|reflexivity].
        exfalso. apply elem_of_cons in Hin'. destruct Hin'; auto.
Qed.

Lemma visitVarsTerm_snapshot :
  forall t (st : gmap var (option Term)) h st' h',
    visitVarsTerm t
      (fun v st => cell <- getVar v;; ret (<[v := value cell]> st)) st h
    = Done (st', h') ->
    h' = h
    /\ st' = fold_left (fun st v => <[v := valueOf h v]> st) (Term_vars t) st.
Proof.
  induction t as [a|i|f|v|f args IH| |] using Term_nested_ind;
    intros st h st' h' H;
    try (inversion H; subst; split; reflexivity).
  - simpl in H. unfold bind, getVar in H. unfold valueOf. simpl.
    destruct (hvars h !! v) as [c|]; [|discriminate].
    inversion H; subst. split; reflexivity.
  - rewrite visitVarsTerm_Compound in H. simpl Term_vars. revert st h H.
    induction IH as [|arg args Harg _ IHargs]; intros st h H.
    + inversion H; subst. split; reflexivity.
    + simpl in H. unfold bind in H.
      destruct (visitVarsTerm arg _ st h) as [[st1 h1]| |] eqn:E;
        try discriminate.
      apply Harg in E. destruct E as [-> ->].
      apply IHargs in H. destruct H as [-> ->].
      split; [reflexivity|]. simpl. rewrite fold_left_app. reflexivity.
Qed.

Lemma visitVars_snapshot fuel :
  forall g (st : gmap var (option Term)) h ts st' h',
    goalTerms fuel h g = Some ts ->
    visitVars fuel g
      (fun v st => cell <- getVar v;; ret (<[v := value cell]> st)) st h
    = Done (st', h') ->
    h' = h
    /\ st' = fold_left (fun st v => <[v := valueOf h v]> st) (terms_vars ts) st.
Proof.
  induction fuel as [|fuel IH]; intros g st h ts st' h' Hts H; [discriminate|].
  simpl in *. destruct g as [a|].
  - unfold bind at 1 in H. unfold getGoal at 1 in H.
    destruct (hgoals h !! a) as [n|] eqn:Hn; [|discriminate].
    destruct (goalTerms fuel h (tail n)) as [ts'|] eqn:Hts'; [|discriminate].
    inversion Hts; subst. unfold bind at 1 in H.
    destruct (visitVarsTerm (head n) _ st h) as [[st1 h1]| |] eqn:E;
      try discriminate.
    apply visitVarsTerm_snapshot in E. destruct E as [-> ->].
    unfold bind, getGoal in H. rewrite Hn in H.
    apply (IH _ _ _ ts') in H; [|exact Hts']. destruct H as [-> ->].
    split; [reflexivity|]. unfold terms_vars. simpl.
    rewrite fold_left_app. reflexivity.
  - inversion Hts; inversion H; subst. split; reflexivity.
Qed.

(** X16. Backtracking restores what the choice point saw.  Take the
    choice point created for a goal list whose head is a compound, and
    any later heap that differs from the heap at creation only in the
    values of variables.  Then [cp.resetVars()] returns, gives every
    variable occurring in the goal list (head or tail) the value it had
    when the choice point was created, and leaves all other variables, all
    names and all goal nodes alone. *)
Theorem resetVars_restores_values_at_creation :
  forall fuel pr g bt h c f args ts h2,
    goalTerms fuel h (Some g) = Some (Compound f args :: ts) ->
    Prog_choicepoint fuel pr (Some g) bt h = Done ((Some c, None), h) ->
    same_shape h h2 ->
    exists h3,
      choicepoint_resetVars fuel c h2 = Done (tt, h3)
      /\ same_shape h h3
      /\ (forall v,
             v ∈ terms_vars (Compound f args :: ts) ->
             valueOf h3 v = valueOf h v)
      /\ (forall v,
             v ∉ terms_vars (Compound f args :: ts) ->
             hvars h3 !! v = hvars h2 !! v).
Proof.
  intros fuel pr g bt h c f args ts h2 Hts HC [Hg2 Hn2].
  assert (Hvs : terms_vars (Compound f args :: ts)
                = terms_vars args ++ terms_vars ts).
  { unfold terms_vars. simpl. reflexivity. }
  rewrite Hvs.
  destruct fuel as [|fuel]; [discriminate|].
  pose proof Hts as Hts0. simpl in Hts.
  destruct (hgoals h !! g) as [n|] eqn:Hn; [|discriminate].
  destruct (goalTerms fuel h (tail n)) as [ts'|] eqn:Hts'; [|discriminate].
  inversion Hts as [[Hhead Heq]]. subst ts'.
  unfold Prog_choicepoint in HC. unfold bind at 1 in HC.
  unfold getGoal at 1 in HC. rewrite Hn in HC.
  unfold bind at 1 in HC. rewrite Hhead in HC. simpl Callable in HC.
  unfold ret at 1 in HC. unfold bind at 1 in HC.
  destruct (visitVars (S fuel) (Some g) _ _ h) as [[st h1]| |] eqn:EV;
    try discriminate.
  apply (visitVars_snapshot _ _ _ _ _ _ _ Hts0) in EV. destruct EV as [-> Hst].
  unfold bind, getGoal in HC. rewrite Hn in HC.
  destruct pr as [prog|]; [|discriminate]. inversion HC; subst c; clear HC.
  assert (Hrem : goalTerms (S fuel) h2 (tail n) = Some ts).
  { rewrite (goalTerms_ext _ h h2 _ Hg2).
    apply (goalTerms_mono fuel); [lia|exact Hts']. }
  eexists. split.
  { apply choicepoint_resetVars_assign. simpl. exact Hrem. }
  cbn [fact state snd].
  pose proof (fold_assign_shape (fun v => default None (st !! v))
                (terms_vars args ++ terms_vars ts) h2) as [A B].
  split; [split; congruence|]. split.
  - intros v Hin. unfold valueOf at 1. rewrite fold_assign_lookup.
    destruct (decide _) as [_|Hnin]; [|contradiction].
    rewrite Hst, fold_snapshot_lookup. rewrite Hvs.
    destruct (decide _) as [_|Hnin]; [|contradiction]. simpl.
    assert (Hlen : length (hvars h2) = length (hvars h)).
    { rewrite <- (length_map name (hvars h2)), Hn2, length_map. reflexivity. }
    unfold var in *.
    destruct (hvars h2 !! v) as [c2|] eqn:E2; [reflexivity|].
    apply lookup_ge_None_1 in E2. unfold valueOf. simpl. unfold var in *.
    destruct (hvars h !! v) as [c0|] eqn:E0; [|reflexivity].
    exfalso. apply lookup_lt_Some in E0. lia.
  - intros v Hnin. rewrite fold_assign_lookup.
    destruct (decide _) as [Hin|_]; [contradiction|reflexivity].
Qed.

(** The choice point of the query [f(X, 3)], created while [X] was
    unbound, reset on a heap where a clause trial has bound [X] to [1]. *)
Lemma resetVars_restores_values_at_creation_witness :
  exists h3,
    choicepoint_resetVars 2 (f_root 3 [Fact "f" [Integer 1; Integer 2]])
      (mkHeap [mkVariable "X" (Some (Integer 1))]
              [mkGoal (Compound "f" [Var 0; Integer 3]) None])
    = Done (tt, h3)
    /\ same_shape f_heap h3
    /\ (forall v,
           v ∈ terms_vars [Compound "f" [Var 0; Integer 3]] ->
           valueOf h3 v = valueOf f_heap v)
    /\ (forall v,
           v ∉ terms_vars [Compound "f" [Var 0; Integer 3]] ->
           hvars h3 !! v
           = hvars (mkHeap [mkVariable "X" (Some (Integer 1))]
                           [mkGoal (Compound "f" [Var 0; Integer 3]) None]) !! v).
Proof.
  apply (resetVars_restores_values_at_creation 2 (Some f_prog) 0 None f_heap
           (f_root 3 [Fact "f" [Integer 1; Integer 2]]) "f"
           [Var 0; Integer 3] []).
  - reflexivity.
  - vm_compute. reflexivity.
  - split; reflexivity.
Defined.

(** ** Copying terms *)

Lemma copied_refl vars h : copied vars h vars h.
Proof.
  split; [reflexivity|]. split.
  { exists []. rewrite app_nil_r. split; [reflexivity|constructor]. }
  split; [auto|]. split; [auto|].
  intros v1 v2 w H1 _ H3 _. congruence.
Qed.

Lemma copied_length vars h vars' h' :
  copied vars h vars' h' -> length (hvars h) <= length (hvars h').
Proof.
  intros (_ & (news & -> & _) & _). rewrite length_app. lia.
Qed.

Lemma copied_trans vars h vars1 h1 vars2 h2 :
  copied vars h vars1 h1 -> copied vars1 h1 vars2 h2 -> copied vars h vars2 h2.
Proof.
  intros C1 C2. pose proof (copied_length _ _ _ _ C1) as L1.
  pose proof (copied_length _ _ _ _ C2) as L2.
  destruct C1 as (G1 & (n1 & E1 & F1) & S1 & N1 & I1).
  destruct C2 as (G2 & (n2 & E2 & F2) & S2 & N2 & I2).
  split; [congruence|]. split.
  { exists (n1 ++ n2). rewrite E2, E1, <- app_assoc. split; [reflexivity|].
    apply Forall_app. auto. }
  split; [auto|]. split.
  { intros v w H. destruct (N2 v w H) as [H1|[H1 R]].
    - destruct (N1 v w H1) as [H0|[H0 R]]; [auto|]. right. split; [exact H0|lia].
    - right. split; [|lia]. destruct (vars !! v) as [w0|] eqn:E; [|reflexivity].
      apply S1 in E. congruence. }
  intros v1 v2 w H1 H2 Z1 Z2.
  destruct (N2 v1 w H1) as [A1|[A1 R1]]; destruct (N2 v2 w H2) as [A2|[A2 R2]].
  - apply (I1 v1 v2 w); assumption.
  - destruct (N1 v1 w A1) as [B|[_ R]]; [|lia].
    unfold var in *. rewrite Z1 in B. discriminate.
  - destruct (N1 v2 w A2) as [B|[_ R]]; [|lia].
    unfold var in *. rewrite Z2 in B. discriminate.
  - apply (I2 v1 v2 w); assumption.
Qed.

Lemma Term_rename_ext m1 m2 :
  forall t,
    (forall v, v ∈ Term_vars t -> m1 !! v = m2 !! v) ->
    Term_rename m1 t = Term_rename m2 t.
Proof.
  induction t as [a|i|f|v|f args IH| |] using Term_nested_ind; intros H;
    try reflexivity.
  - simpl. rewrite (H v); [reflexivity|]. simpl. apply elem_of_cons. auto.
  - simpl. f_equal. simpl in H. induction IH as [|t args Ht _ IHargs];
      [reflexivity|].
    simpl. f_equal.
    + apply Ht. intros v Hv. apply H. simpl. apply elem_of_app. auto.
    + apply IHargs. intros v Hv. apply H. simpl. apply elem_of_app. auto.
Qed.

Lemma cpTerm_Compound f args vars :
  cpTerm (Compound f args) vars
  = (r <- cpTerms args vars;; ret (Compound f (fst r), snd r)).
Proof. reflexivity. Qed.

Lemma cpTerm_copies :
  forall t vars h t' vars' h',
    cpTerm t vars h = Done ((t', vars'), h') ->
    copied vars h vars' h'
    /\ t' = Term_rename vars' t
    /\ (forall v, v ∈ Term_vars t -> is_Some (vars' !! v)).
Proof.
  induction t as [a|i|f|v|f args IH| |] using Term_nested_ind;
    intros vars h t' vars' h' H;
    try (inversion H; subst; split; [apply copied_refl|];
         split; [reflexivity|]; intros v Hv; apply elem_of_nil in Hv;
         contradiction).
  - (* a variable *)
    simpl in H. destruct (vars !! v) as [w|] eqn:E.
    + inversion H; subst. split; [apply copied_refl|]. simpl. rewrite E.
      split; [reflexivity|]. intros v' Hv. apply elem_of_cons in Hv.
      destruct Hv as [->|Hv]; [eauto|]. apply elem_of_nil in Hv. contradiction.
    + unfold bind, getVar in H. destruct (hvars h !! v) as [c|]; [|discriminate].
      inversion H; subst; clear H. split; [|split].
      * split; [reflexivity|]. split.
        { eexists. split; [reflexivity|]. constructor; [reflexivity|constructor]. }
        split.
        { intros v0 w H. rewrite lookup_insert_ne; [exact H|]. congruence. }
        split.
        { intros v0 w H. simpl. destruct (decide (v = v0)) as [->|Hne].
          - rewrite lookup_insert_eq in H. inversion H; subst. right.
            split; [exact E|]. rewrite length_app. simpl. lia.
          - rewrite lookup_insert_ne in H by exact Hne. auto. }
        intros v1 v2 w H1 H2 Z1 Z2.
        unfold var in *. destruct (decide (v = v1)) as [->|N1].
        -- destruct (decide (v1 = v2)) as [->|N2]; [reflexivity|].
           rewrite lookup_insert_ne in H2 by exact N2.
           rewrite Z2 in H2. discriminate.
        -- rewrite lookup_insert_ne in H1 by exact N1.
           rewrite Z1 in H1. discriminate.
      * simpl. rewrite lookup_insert_eq. reflexivity.
      * intros v' Hv. apply elem_of_cons in Hv.
        destruct Hv as [->|Hv]; [|apply elem_of_nil in Hv; contradiction].
        rewrite lookup_insert_eq. eauto.
  - (* a compound *)
    rewrite cpTerm_Compound in H. unfold bind in H.
    destruct (cpTerms args vars h) as [[[ts vars1] h1]| |] eqn:E;
      try discriminate.
    inversion H; subst; clear H. simpl.
    assert (Hargs : copied vars h vars' h'
                    /\ ts = map (Term_rename vars') args
                    /\ forall v, v ∈ flat_map Term_vars args ->
                                 is_Some (vars' !! v)).
    { revert vars h ts vars' h' E.
      induction IH as [|t args Ht _ IHargs]; intros vars h ts vars' h' E.
      - inversion E; subst. split; [apply copied_refl|].
        split; [reflexivity|]. intros v Hv. apply elem_of_nil in Hv.
        contradiction.
      - simpl in E. unfold bind in E.
        destruct (cpTerm t vars h) as [[[t1 vars1] h1]| |] eqn:E1;
          try discriminate.
        simpl in E.
        destruct (cpTerms args vars1 h1) as [[[ts2 vars2] h2]| |] eqn:E2;
          try discriminate.
        inversion E; subst; clear E.
        apply Ht in E1. destruct E1 as (C1 & -> & D1).
        apply IHargs in E2. destruct E2 as (C2 & -> & D2).
        split; [eapply copied_trans; eauto|]. split.
        + simpl. f_equal. apply Term_rename_ext. intros v Hv.
          destruct (D1 v Hv) as [w Hw]. rewrite Hw. symmetry.
          destruct C2 as (_ & _ & S2 & _). apply S2, Hw.
        + intros v Hv. simpl in Hv. apply elem_of_app in Hv.
          destruct Hv as [Hv|Hv]; [|apply D2, Hv].
          destruct (D1 v Hv) as [w Hw]. exists w.
          destruct C2 as (_ & _ & S2 & _). apply S2, Hw. }
    destruct Hargs as (C & -> & D). auto.
Qed.

Lemma cpTerms_copies :
  forall terms vars h ts vars' h',
    cpTerms terms vars h = Done ((ts, vars'), h') ->
    copied vars h vars' h'
    /\ ts = map (Term_rename vars') terms
    /\ (forall v, v ∈ terms_vars terms -> is_Some (vars' !! v)).
Proof.
  intros terms vars h ts vars' h' H.
  assert (E : cpTerm (Compound "" terms) vars h
              = Done ((Compound "" ts, vars'), h')).
  { rewrite cpTerm_Compound. unfold bind. rewrite H. reflexivity. }
  apply cpTerm_copies in E. destruct E as (C & E & D).
  split; [exact C|]. split; [|exact D]. simpl in E. congruence.
Qed.

(** X17. Copying a list of terms with an empty table (as [Rule.cp] does
    for the parameters) returns the terms with every variable replaced
    through one table.  The table has an entry for every variable of the
    terms, maps different variables to different variables, and maps only
    to variables allocated by this copy; these are appended to the heap
    unbound, while the existing variables and all goal nodes are left as
    they were. *)
Theorem cpTerms_renames_into_fresh_variables :
  forall terms h ts vars' h',
    cpTerms terms ∅ h = Done ((ts, vars'), h') ->
    ts = map (Term_rename vars') terms
    /\ hgoals h' = hgoals h
    /\ (exists news, hvars h' = hvars h ++ news
                     /\ Forall (fun c => value c = None) news)
    /\ (forall v, v ∈ terms_vars terms -> is_Some (vars' !! v))
    /\ (forall v w, vars' !! v = Some w ->
                    length (hvars h) <= w < length (hvars h'))
    /\ (forall v1 v2 w, vars' !! v1 = Some w -> vars' !! v2 = Some w ->
                        v1 = v2).
Proof.
  intros terms h ts vars' h' H. apply cpTerms_copies in H.
  destruct H as ((G & A & _ & N & I) & E & D).
  split; [exact E|]. split; [exact G|]. split; [exact A|]. split; [exact D|].
  split.
  - intros v w Hv. destruct (N v w Hv) as [Z|[_ R]]; [|exact R].
    rewrite lookup_empty in Z. discriminate.
  - intros v1 v2 w H1 H2. apply (I v1 v2 w H1 H2); apply lookup_empty.
Qed.

(** The parameters [P1, P2, g(P1)] over two variables. *)
Lemma cpTerms_renames_into_fresh_variables_witness :
  [Var 2; Var 3; Compound "g" [Var 2]]
  = map (Term_rename (<[1 := 3]> (<[0 := 2]> ∅)))
        [Var 0; Var 1; Compound "g" [Var 0]]
  /\ hgoals (mkHeap (hvars xy_heap ++ [mkVariable "X" None; mkVariable "Y" None])
                    []) = hgoals xy_heap
  /\ (exists news,
         hvars (mkHeap (hvars xy_heap
                        ++ [mkVariable "X" None; mkVariable "Y" None]) [])
         = hvars xy_heap ++ news
         /\ Forall (fun c => value c = None) news)
  /\ (forall v, v ∈ terms_vars [Var 0; Var 1; Compound "g" [Var 0]] ->
                is_Some ((<[1 := 3]> (<[0 := 2]> ∅) : gmap var var) !! v))
  /\ (forall v w, (<[1 := 3]> (<[0 := 2]> ∅) : gmap var var) !! v = Some w ->
                  length (hvars xy_heap) <= w
                  < length (hvars (mkHeap (hvars xy_heap
                                           ++ [mkVariable "X" None;
                                               mkVariable "Y" None]) [])))
  /\ (forall v1 v2 w,
         (<[1 := 3]> (<[0 := 2]> ∅) : gmap var var) !! v1 = Some w ->
         (<[1 := 3]> (<[0 := 2]> ∅) : gmap var var) !! v2 = Some w ->
         v1 = v2).
Proof.
  apply (cpTerms_renames_into_fresh_variables
           [Var 0; Var 1; Compound "g" [Var 0]] xy_heap).
  vm_compute. reflexivity.
Defined.

(** ** Copying a rule with at most two goals *)

Lemma goalTerms_app fuel :
  forall h h' g ts extra,
    hgoals h' = hgoals h ++ extra ->
    goalTerms fuel h g = Some ts ->
    goalTerms fuel h' g = Some ts.
Proof.
  induction fuel as [|fuel IH]; intros h h' g ts extra E H; [discriminate|].
  simpl in *. destruct g as [a|]; [|exact H].
  destruct (hgoals h !! a) as [n|] eqn:Hn; [|discriminate].
  rewrite E, (lookup_app_l_Some _ _ _ _ Hn).
  destruct (goalTerms fuel h (tail n)) as [ts'|] eqn:Hts; [|discriminate].
  rewrite (IH h h' _ ts' extra E Hts). exact H.
Qed.

Lemma alter_at_length {A} (f : A -> A) (l : list A) x rest :
  alter f (length l) (l ++ x :: rest) = l ++ f x :: rest.
Proof.
  induction l as [|y l IH]; simpl; [reflexivity|]. f_equal. exact IH.
Qed.

Lemma rename_args_ext (va vb : gmap var var) args :
  (forall v w, va !! v = Some w -> vb !! v = Some w) ->
  (forall v, v ∈ terms_vars args -> is_Some (va !! v)) ->
  map (Term_rename va) args = map (Term_rename vb) args.
Proof.
  intros S D. induction args as [|t args IH]; [reflexivity|].
  simpl. f_equal.
  - apply Term_rename_ext. intros v Hv.
    destruct (D v) as [w Hw]; [unfold terms_vars; simpl; apply elem_of_app; auto|].
    rewrite Hw. symmetry. apply S, Hw.
  - apply IH. intros v Hv. apply D. unfold terms_vars. simpl.
    apply elem_of_app. auto.
Qed.

Lemma rename_term_ext (va vb : gmap var var) t :
  (forall v w, va !! v = Some w -> vb !! v = Some w) ->
  (forall v, v ∈ Term_vars t -> is_Some (va !! v)) ->
  Term_rename va t = Term_rename vb t.
Proof.
  intros S D. apply Term_rename_ext. intros v Hv.
  destruct (D v Hv) as [w Hw]. rewrite Hw. symmetry. apply S, Hw.
Qed.

Lemma bind_Done {A B} (m : M A) (k : A -> M B) h a h1 r :
  m h = Done (a, h1) -> k a h1 = Done r -> bind m k h = Done r.
Proof. intros Hm Hk. unfold bind. rewrite Hm. exact Hk. Qed.

Lemma copied_erase_goals vars h vars' h' :
  copied vars h vars' h' ->
  copied vars (mkHeap (hvars h) []) vars' (mkHeap (hvars h') []).
Proof.
  intros (_ & A & B). split; [reflexivity|]. split; [exact A|exact B].
Qed.

Lemma copied_from_empty h vars' h' :
  copied ∅ (mkHeap (hvars h) []) vars' (mkHeap (hvars h') []) ->
  (exists newv, hvars h' = hvars h ++ newv
                /\ Forall (fun c => value c = None) newv)
  /\ (forall v w, vars' !! v = Some w ->
                  length (hvars h) <= w < length (hvars h'))
  /\ (forall v1 v2 w, vars' !! v1 = Some w -> vars' !! v2 = Some w -> v1 = v2).
Proof.
  intros (_ & A & _ & N & I). simpl in *. split; [exact A|]. split.
  - intros v w Hv. destruct (N v w Hv) as [Z|[_ R]]; [|exact R].
    rewrite lookup_empty in Z. discriminate.
  - intros v1 v2 w H1 H2. apply (I v1 v2 w H1 H2); apply lookup_empty.
Qed.

(** The copying closures return when every variable of the term is a
    cell of the heap. *)
Lemma cpTerm_returns :
  forall t vars h,
    (forall v, v ∈ Term_vars t -> v < length (hvars h)) ->
    exists t' vars' h', cpTerm t vars h = Done ((t', vars'), h').
Proof.
  induction t as [a|i|f|v|f args IH| |] using Term_nested_ind;
    intros vars h Hin; try (do 3 eexists; reflexivity).
  - simpl. destruct (vars !! v) as [w|]; [do 3 eexists; reflexivity|].
    destruct (lookup_lt_is_Some_2 (hvars h) v) as [c Hc].
    { apply Hin. simpl. apply elem_of_cons. auto. }
    unfold bind, getVar. unfold var in *. rewrite Hc.
    do 3 eexists. reflexivity.
  - rewrite cpTerm_Compound.
    assert (Hargs : exists ts vars' h',
               cpTerms args vars h = Done ((ts, vars'), h')).
    { simpl in Hin. revert vars h Hin.
      induction IH as [|t args Ht _ IHargs]; intros vars h Hin.
      - do 3 eexists. reflexivity.
      - destruct (Ht vars h) as (t1 & vars1 & h1 & E1).
        { intros v Hv. apply Hin. simpl. apply elem_of_app. auto. }
        pose proof (cpTerm_copies _ _ _ _ _ _ E1) as (C1 & _).
        apply copied_length in C1.
        destruct (IHargs vars1 h1) as (ts2 & vars2 & h2 & E2).
        { intros v Hv. specialize (Hin v). simpl in Hin.
          assert (v < length (hvars h)) by (apply Hin, elem_of_app; auto).
          lia. }
        simpl. unfold bind. rewrite E1. simpl. rewrite E2.
        do 3 eexists. reflexivity. }
    destruct Hargs as (ts & vars' & h' & E). unfold bind. rewrite E.
    do 3 eexists. reflexivity.
Qed.

Lemma cpTerms_returns terms vars h :
  (forall v, v ∈ terms_vars terms -> v < length (hvars h)) ->
  exists ts vars' h', cpTerms terms vars h = Done ((ts, vars'), h').
Proof.
  intros Hin. destruct (cpTerm_returns (Compound "" terms) vars h Hin)
    as (t' & vars' & h' & E).
  rewrite cpTerm_Compound in E. unfold bind in E.
  destruct (cpTerms terms vars h) as [[[ts vars1] h1]| |]; try discriminate.
  do 3 eexists. reflexivity.
Qed.

Lemma Rule_cp_short_spec fuel r h r' h' ts :
  goalTerms 3 h (rbody r) = Some ts ->
  Rule_cp fuel r h = Done (r', h') ->
  exists vars' newg,
    rfunctor r' = rfunctor r
    /\ rargs r' = map (Term_rename vars') (rargs r)
    /\ rbody r' = match rbody r with
                  | Some _ => Some (length (hgoals h))
                  | None => None
                  end
    /\ goalTerms 3 h' (rbody r') = Some (map (Term_rename vars') ts)
    /\ goalTerms 3 h' (rbody r) = Some ts
    /\ hgoals h' = hgoals h ++ newg
    /\ length newg = length ts
    /\ (forall v, v ∈ terms_vars (rargs r) ++ terms_vars ts ->
                  is_Some (vars' !! v))
    /\ copied ∅ (mkHeap (hvars h) []) vars' (mkHeap (hvars h') []).
Proof.
  intros Hts H. unfold Rule_cp in H. unfold bind at 1 in H.
  destruct (cpTerms (rargs r) ∅ h) as [[[a va] h1]| |] eqn:Ea; try discriminate.
  apply cpTerms_copies in Ea. destruct Ea as (Ca & -> & Da). simpl in H.
  destruct (rbody r) as [b|] eqn:Hb.
  - (* a body *)
    simpl in Hts. destruct (hgoals h !! b) as [n|] eqn:Hn; [|discriminate].
    pose proof Ca as (G1 & _ & Sa & _).
    unfold bind at 1 in H. unfold getGoal at 1 in H.
    rewrite G1, Hn in H. unfold bind at 1 in H.
    destruct (cpTerm (head n) va h1) as [[[t1 v1] h2]| |] eqn:E1;
      try discriminate.
    apply cpTerm_copies in E1. destruct E1 as (C1 & -> & D1).
    pose proof C1 as (G2 & _ & S1 & _). simpl in H.
    unfold bind at 1 in H. unfold allocGoal at 1 in H.
    unfold bind at 1 in H. unfold getGoal at 1 in H. simpl in H.
    rewrite G2, G1, (lookup_app_l_Some _ _ _ _ Hn) in H.
    destruct fuel as [|fuel]; [discriminate|]. simpl cp_loop in H.
    pose proof (copied_trans _ _ _ _ _ _ (copied_erase_goals _ _ _ _ Ca)
                  (copied_erase_goals _ _ _ _ C1)) as CV1.
    destruct (tail n) as [nx|] eqn:Htl.
    + (* two goals *)
      destruct (hgoals h !! nx) as [n2|] eqn:Hn2; [|discriminate].
      destruct (tail n2) as [nx2|] eqn:Htl2;
        [simpl in Hts; destruct (hgoals h !! nx2); discriminate|].
      simpl in Hts. inversion Hts; subst ts; clear Hts.
      unfold bind at 1 in H. unfold bind at 1 in H. unfold getGoal at 1 in H.
      simpl in H. rewrite (lookup_app_l_Some _ _ _ _ Hn2) in H.
      unfold bind at 1 in H.
      destruct (cpTerm (head n2) v1 _) as [[[t2 v2] h4]| |] eqn:E2;
        try discriminate.
      apply cpTerm_copies in E2. destruct E2 as (C2 & -> & D2).
      pose proof C2 as (G4 & _ & S2 & _). simpl in G4.
      pose proof (copied_trans _ _ _ _ _ _ CV1 (copied_erase_goals _ _ _ _ C2))
        as CV2.
      simpl in H. unfold bind at 1 in H. unfold allocGoal at 1 in H.
      unfold bind at 1 in H. unfold setTail at 1 in H. simpl in H.
      unfold bind at 1 in H. unfold getGoal at 1 in H. simpl in H.
      rewrite G4 in H.
      assert (Halt :
        alter (fun n0 => mkGoal (head n0) (Some (length (hgoals h ++ [mkGoal (Term_rename v1 (head n)) None]))))
          (length (hgoals h))
          ((hgoals h ++ [mkGoal (Term_rename v1 (head n)) None])
           ++ [mkGoal (Term_rename v2 (head n2)) None])
        = hgoals h
          ++ [mkGoal (Term_rename v1 (head n)) (Some (S (length (hgoals h))));
              mkGoal (Term_rename v2 (head n2)) None]).
      { rewrite <- app_assoc. simpl. rewrite alter_at_length.
        rewrite length_app. simpl. rewrite Nat.add_1_r. reflexivity. }
      unfold goalptr in *. rewrite Halt in H.
      rewrite (lookup_app_l_Some _ _ _ _ Hn2) in H.
      rewrite Htl2 in H. destruct fuel as [|fuel]; [discriminate|].
      simpl in H. inversion H; subst r' h'; clear H. simpl.
      exists v2. eexists.
      split; [reflexivity|]. split.
      { apply rename_args_ext; [|exact Da]. intros v w Hv. apply S2, S1, Hv. }
      split; [reflexivity|]. split.
      { rewrite list_lookup_middle by reflexivity. simpl.
        rewrite (lookup_app_r (hgoals h)) by lia.
        replace (S (length (hgoals h)) - length (hgoals h)) with 1 by lia.
        simpl. rewrite (rename_term_ext v1 v2 (head n) S2 D1). reflexivity. }
      split.
      { rewrite (lookup_app_l_Some _ _ _ _ Hn), Htl.
        rewrite (lookup_app_l_Some _ _ _ _ Hn2), Htl2. reflexivity. }
      split; [reflexivity|]. split; [reflexivity|]. split; [|exact CV2].
      intros v Hv. unfold terms_vars in Hv. simpl in Hv.
      rewrite app_nil_r in Hv.
      apply elem_of_app in Hv. destruct Hv as [Hv|Hv].
      { destruct (Da v Hv) as [w Hw]. exists w. apply S2, S1, Hw. }
      apply elem_of_app in Hv. destruct Hv as [Hv|Hv].
      { destruct (D1 v Hv) as [w Hw]. exists w. apply S2, Hw. }
      apply D2, Hv.
    + (* one goal *)
      simpl in Hts. inversion Hts; subst ts; clear Hts.
      simpl in H. inversion H; subst r' h'; clear H. simpl.
      exists v1. eexists.
      split; [reflexivity|]. split.
      { apply rename_args_ext; [|exact Da]. intros v w Hv. apply S1, Hv. }
      split; [reflexivity|]. split.
      { rewrite list_lookup_middle by reflexivity. reflexivity. }
      split.
      { rewrite (lookup_app_l_Some _ _ _ _ Hn), Htl. reflexivity. }
      split; [reflexivity|]. split; [reflexivity|]. split; [|exact CV1].
      intros v Hv. unfold terms_vars in Hv. simpl in Hv.
      rewrite app_nil_r in Hv.
      apply elem_of_app in Hv. destruct Hv as [Hv|Hv].
      { destruct (Da v Hv) as [w Hw]. exists w. apply S1, Hw. }
      apply D1, Hv.
  - (* no body *)
    simpl in Hts. inversion Hts; subst ts; clear Hts.
    inversion H; subst r' h'; clear H. simpl. exists va, [].
    pose proof Ca as (G & _).
    split; [reflexivity|]. split; [reflexivity|]. split; [reflexivity|].
    split; [reflexivity|]. split; [reflexivity|].
    split; [rewrite app_nil_r; exact G|]. split; [reflexivity|].
    split; [|apply copied_erase_goals, Ca].
    intros v Hv. unfold terms_vars in Hv. simpl in Hv.
    rewrite app_nil_r in Hv. apply Da, Hv.
Qed.

Lemma Rule_cp_short_returns fuel r h ts :
  goalTerms 3 h (rbody r) = Some ts ->
  (forall v, v ∈ terms_vars (rargs r) ++ terms_vars ts ->
             v < length (hvars h)) ->
  exists r' h', Rule_cp (S (S fuel)) r h = Done (r', h').
Proof.
  intros Hts Hin. unfold Rule_cp.
  destruct (cpTerms_returns (rargs r) ∅ h) as (a & va & h1 & Ea).
  { intros v Hv. apply Hin, elem_of_app. auto. }
  pose proof (cpTerms_copies _ _ _ _ _ _ Ea) as (Ca & _).
  pose proof (copied_length _ _ _ _ Ca) as La. destruct Ca as (G1 & _).
  destruct h1 as [hv1 hg1]. simpl in G1, La. subst hg1.
  destruct (rbody r) as [b|] eqn:Hb.
  - simpl in Hts. destruct (hgoals h !! b) as [n|] eqn:Hn; [|discriminate].
    assert (Hin1 : forall v, v ∈ Term_vars (head n) -> v < length hv1).
    { intros v Hv. assert (v < length (hvars h)); [|lia].
      apply Hin, elem_of_app. right.
      destruct (tail n) as [nx|]; [|inversion Hts; subst; unfold terms_vars;
                                     simpl; apply elem_of_app; auto].
      destruct (hgoals h !! nx) as [n2|]; [|discriminate].
      destruct (match tail n2 with Some a0 => _ | None => _ end);
        [|discriminate].
      inversion Hts; subst. unfold terms_vars. simpl.
      apply elem_of_app. auto. }
    destruct (cpTerm_returns (head n) va (mkHeap hv1 (hgoals h)) Hin1)
      as (t1 & v1 & h2 & E1).
    pose proof (cpTerm_copies _ _ _ _ _ _ E1) as (C1 & _).
    pose proof (copied_length _ _ _ _ C1) as L1. destruct C1 as (G2 & _).
    destruct h2 as [hv2 hg2]. simpl in G2, L1. subst hg2.
    assert (Hb1 : forall hv extra,
               getGoal b (mkHeap hv (hgoals h ++ extra))
               = Done (n, mkHeap hv (hgoals h ++ extra))).
    { intros hv extra. unfold getGoal. simpl.
      rewrite (lookup_app_l_Some _ _ _ _ Hn). reflexivity. }
    assert (Hb0 : forall hv,
               getGoal b (mkHeap hv (hgoals h))
               = Done (n, mkHeap hv (hgoals h))).
    { intros hv. unfold getGoal. simpl. rewrite Hn. reflexivity. }
    destruct (tail n) as [nx|] eqn:Htl.
    + destruct (hgoals h !! nx) as [n2|] eqn:Hn2; [|discriminate].
      destruct (tail n2) as [nx2|] eqn:Htl2;
        [simpl in Hts; destruct (hgoals h !! nx2); discriminate|].
      simpl in Hts. inversion Hts; subst ts; clear Hts.
      assert (Hin2 : forall v, v ∈ Term_vars (head n2) -> v < length hv2).
      { intros v Hv. assert (v < length (hvars h)); [|lia].
        apply Hin, elem_of_app. right. unfold terms_vars. simpl.
        apply elem_of_app. right. apply elem_of_app. auto. }
      destruct (cpTerm_returns (head n2) v1
                  (mkHeap hv2 (hgoals h ++ [mkGoal t1 None])) Hin2)
        as (t2 & v2 & h4 & E2).
      pose proof (cpTerm_copies _ _ _ _ _ _ E2) as ((G4 & _) & _).
      destruct h4 as [hv4 hg4]. simpl in G4. subst hg4.
      assert (Hb2 : forall hv extra,
                 getGoal nx (mkHeap hv (hgoals h ++ extra))
                 = Done (n2, mkHeap hv (hgoals h ++ extra))).
      { intros hv extra. unfold getGoal. simpl.
        rewrite (lookup_app_l_Some _ _ _ _ Hn2). reflexivity. }
      do 2 eexists.
      eapply bind_Done; [exact Ea|]. cbn [fst snd].
      eapply bind_Done; [apply Hb0|].
      eapply bind_Done; [exact E1|]. cbn [fst snd].
      eapply bind_Done; [reflexivity|]. cbn [hvars hgoals].
      eapply bind_Done; [apply Hb1|].
      rewrite Htl. eapply bind_Done; [|reflexivity].
      simpl cp_loop.
      eapply bind_Done; [apply Hb2|].
      eapply bind_Done; [exact E2|]. cbn [fst snd].
      eapply bind_Done; [reflexivity|]. cbn [hvars hgoals].
      eapply bind_Done; [reflexivity|]. cbn [hvars hgoals].
      rewrite <- app_assoc. cbn [app].
      rewrite alter_at_length.
      eapply bind_Done; [apply Hb2|].
      rewrite Htl2. reflexivity.
    + do 2 eexists.
      eapply bind_Done; [exact Ea|]. cbn [fst snd].
      eapply bind_Done; [apply Hb0|].
      eapply bind_Done; [exact E1|]. cbn [fst snd].
      eapply bind_Done; [reflexivity|]. cbn [hvars hgoals].
      eapply bind_Done; [apply Hb1|].
      rewrite Htl. eapply bind_Done; [reflexivity|reflexivity].
  - do 2 eexists. eapply bind_Done; [exact Ea|]. reflexivity.
Qed.

(** X18. For a rule whose body has at most two goals and whose variables
    are cells of the heap, [r.cp()] returns.  The rule it returns has the
    same functor; its parameters and its body goals are those of the rule,
    in the same number and order, with every variable replaced through
    one table that has an entry for each variable of the rule, maps
    different variables to different variables and maps only to variables
    allocated by this copy.  Its body is made of newly allocated goal
    nodes, one per goal; the rule's own body still reads as before;
    existing goal nodes and variables are untouched, and the appended
    variables are unbound. *)
Theorem Rule_cp_copies_rules_of_up_to_two_goals :
  forall fuel r h ts,
    goalTerms 3 h (rbody r) = Some ts ->
    (forall v, v ∈ terms_vars (rargs r) ++ terms_vars ts ->
               v < length (hvars h)) ->
    exists r' h' vars' newg newv,
      Rule_cp (S (S fuel)) r h = Done (r', h')
      /\ rfunctor r' = rfunctor r
      /\ rargs r' = map (Term_rename vars') (rargs r)
      /\ rbody r' = match rbody r with
                    | Some _ => Some (length (hgoals h))
                    | None => None
                    end
      /\ goalTerms 3 h' (rbody r') = Some (map (Term_rename vars') ts)
      /\ goalTerms 3 h' (rbody r) = Some ts
      /\ hgoals h' = hgoals h ++ newg
      /\ length newg = length ts
      /\ hvars h' = hvars h ++ newv
      /\ Forall (fun c => value c = None) newv
      /\ (forall v, v ∈ terms_vars (rargs r) ++ terms_vars ts ->
                    is_Some (vars' !! v))
      /\ (forall v w, vars' !! v = Some w ->
                      length (hvars h) <= w < length (hvars h'))
      /\ (forall v1 v2 w, vars' !! v1 = Some w -> vars' !! v2 = Some w ->
                          v1 = v2).
Proof.
  intros fuel r h ts Hts Hin.
  destruct (Rule_cp_short_returns fuel r h ts Hts Hin) as (r' & h' & E).
  destruct (Rule_cp_short_spec _ _ _ _ _ _ Hts E)
    as (vars' & newg & A1 & A2 & A3 & A4 & A5 & A6 & A7 & A8 & CV).
  apply copied_from_empty in CV. destruct CV as ((newv & V & F) & R & I).
  exists r', h', vars', newg, newv. repeat (split; [assumption|]). exact I.
Qed.

(** The rule of [TestSimpleRule]. *)
Lemma Rule_cp_copies_rules_of_up_to_two_goals_witness :
  exists r' h' vars' newg newv,
    Rule_cp 2 friends_rule friends_heap = Done (r', h')
    /\ rfunctor r' = rfunctor friends_rule
    /\ rargs r' = map (Term_rename vars') (rargs friends_rule)
    /\ rbody r' = match rbody friends_rule with
                  | Some _ => Some (length (hgoals friends_heap))
                  | None => None
                  end
    /\ goalTerms 3 h' (rbody r')
       = Some (map (Term_rename vars')
                 [Compound "likes" [Var 0; Var 2];
                  Compound "likes" [Var 1; Var 2]])
    /\ goalTerms 3 h' (rbody friends_rule)
       = Some [Compound "likes" [Var 0; Var 2]; Compound "likes" [Var 1; Var 2]]
    /\ hgoals h' = hgoals friends_heap ++ newg
    /\ length newg
       = length [Compound "likes" [Var 0; Var 2];
                 Compound "likes" [Var 1; Var 2]]
    /\ hvars h' = hvars friends_heap ++ newv
    /\ Forall (fun c => value c = None) newv
    /\ (forall v,
           v ∈ terms_vars (rargs friends_rule)
               ++ terms_vars [Compound "likes" [Var 0; Var 2];
                              Compound "likes" [Var 1; Var 2]] ->
           is_Some (vars' !! v))
    /\ (forall v w, vars' !! v = Some w ->
                    length (hvars friends_heap) <= w < length (hvars h'))
    /\ (forall v1 v2 w, vars' !! v1 = Some w -> vars' !! v2 = Some w ->
                        v1 = v2).
Proof.
  apply (Rule_cp_copies_rules_of_up_to_two_goals 0 friends_rule friends_heap).
  - reflexivity.
  - intros v Hv. vm_compute in Hv.
    repeat (apply elem_of_cons in Hv; destruct Hv as [->|Hv];
            [simpl; lia|]).
    apply elem_of_nil in Hv. contradiction.
Defined.

(** The copy [friends_rule.cp()] makes on [friends_heap]. *)
Example Rule_cp_friends_rule :
  Rule_cp 2 friends_rule friends_heap
  = Done (mkRule "friends" [Var 3; Var 4] (Some 2), friends_heap_cp).
Proof. vm_compute. reflexivity. Qed.

(** ** Building goal lists *)

Lemma NewGoal_loop_builds :
  forall ts pre x h,
    hgoals h = pre ++ [mkGoal x None] ->
    exists rest,
      NewGoal_loop (length pre) ts h
      = Done (tt, mkHeap (hvars h) (pre ++ rest))
      /\ length rest = S (length ts)
      /\ goalTerms (S (S (length ts))) (mkHeap (hvars h) (pre ++ rest))
           (Some (length pre))
         = Some (x :: ts).
Proof.
  induction ts as [|t ts IH]; intros pre x h Hh.
  - exists [mkGoal x None]. simpl. rewrite <- Hh. destruct h; simpl.
    split; [reflexivity|]. split; [reflexivity|]. simpl in Hh. rewrite Hh.
    rewrite list_lookup_middle by reflexivity. reflexivity.
  - simpl NewGoal_loop. unfold bind at 1. unfold allocGoal. unfold bind at 1.
    unfold setTail. simpl. rewrite Hh, <- app_assoc. simpl.
    rewrite alter_at_length. simpl.
    specialize (IH (pre ++ [mkGoal x (Some (length (pre ++ [mkGoal x None])))]) t
                  (mkHeap (hvars h)
                     (pre ++ [mkGoal x (Some (length (pre ++ [mkGoal x None])));
                              mkGoal t None]))).
    destruct IH as (rest & E & L & G).
    { simpl. rewrite <- app_assoc. reflexivity. }
    assert (Hl : length (pre ++ [mkGoal x (Some (length (pre ++ [mkGoal x None])))])
                 = length (pre ++ [mkGoal x None])).
    { rewrite !length_app. reflexivity. }
    rewrite Hl in E, G. simpl in E, G.
    exists (mkGoal x (Some (length (pre ++ [mkGoal x None]))) :: rest).
    rewrite <- app_assoc in E, G. simpl in E, G.
    split; [exact E|]. split; [simpl; lia|].
    remember (S (S (length ts))) as k. simpl.
    rewrite list_lookup_middle by reflexivity. simpl. rewrite G. reflexivity.
Qed.

(** X19. [NewGoal(head, tail...)] always returns; it allocates one goal
    node per term after the existing ones, touches no existing node and no
    variable, and the list it returns reads, front to back, as [head]
    followed by [tail]. *)
Theorem NewGoal_builds_the_list :
  forall hd tl h,
    exists rest,
      NewGoal hd tl h
      = Done (length (hgoals h), mkHeap (hvars h) (hgoals h ++ rest))
      /\ length rest = S (length tl)
      /\ goalTerms (S (S (length tl))) (mkHeap (hvars h) (hgoals h ++ rest))
           (Some (length (hgoals h)))
         = Some (hd :: tl).
Proof.
  intros hd tl h. unfold NewGoal. unfold bind at 1. unfold allocGoal.
  destruct (NewGoal_loop_builds tl (hgoals h) hd
              (mkHeap (hvars h) (hgoals h ++ [mkGoal hd None])) eq_refl)
    as (rest & E & L & G).
  exists rest. unfold bind. rewrite E. simpl in *. auto.
Qed.

(** ** Calling a fact *)

(** X20. Calling a fact never returns a body; it matches only when the
    number of arguments is the arity of the fact, and returns without
    touching the heap when it is not; and whatever it returns, it has
    only bound unbound variables: goal nodes, names and existing bindings
    are as before. *)
Theorem Compound_Call_matches_by_unification_only :
  forall fuel cargs args h body m h',
    Compound_Call fuel cargs args h = Done ((body, m), h') ->
    body = None
    /\ (m = true -> length cargs = length args)
    /\ (length cargs <> length args -> m = false /\ h' = h)
    /\ hgoals h' = hgoals h
    /\ map name (hvars h') = map name (hvars h)
    /\ (forall v t, valueOf h v = Some t -> valueOf h' v = Some t).
Proof.
  intros fuel cargs args h body m h' H. unfold Compound_Call in H.
  destruct (Nat.eqb_spec (length cargs) (length args)) as [E|E]; simpl in H.
  - unfold bind in H.
    destruct (rangeAll _ 0 args h) as [[ok h1]| |] eqn:ER; try discriminate.
    assert (B : binds_only h h1).
    { revert ER. apply (inv_rangeAll _ binds_only_refl binds_only_trans).
      intros i arg. apply inv_index_bind. intros t _. apply Unify_binds_only. }
    destruct B as [[G N] K].
    destruct ok; inversion H; subst; repeat split; auto; try discriminate;
      intros; contradiction.
  - inversion H; subst. repeat split; auto. discriminate.
Qed.

(** The fact [f(1, 2)] called with [(X, 3)]: no match, [X] bound. *)
Lemma Compound_Call_matches_by_unification_only_witness :
  (None : option goalptr) = None
  /\ (false = true -> length [Integer 1; Integer 2] = length [Var 0; Integer 3])
  /\ (length [Integer 1; Integer 2] <> length [Var 0; Integer 3] ->
      false = false
      /\ mkHeap [mkVariable "X" (Some (Integer 1))]
                [mkGoal (Compound "f" [Var 0; Integer 3]) None] = f_heap)
  /\ hgoals (mkHeap [mkVariable "X" (Some (Integer 1))]
                    [mkGoal (Compound "f" [Var 0; Integer 3]) None])
     = hgoals f_heap
  /\ map name (hvars (mkHeap [mkVariable "X" (Some (Integer 1))]
                        [mkGoal (Compound "f" [Var 0; Integer 3]) None]))
     = map name (hvars f_heap)
  /\ (forall v t,
         valueOf f_heap v = Some t ->
         valueOf (mkHeap [mkVariable "X" (Some (Integer 1))]
                         [mkGoal (Compound "f" [Var 0; Integer 3]) None]) v
         = Some t).
Proof.
  apply (Compound_Call_matches_by_unification_only 2
           [Integer 1; Integer 2] [Var 0; Integer 3] f_heap None false).
  reflexivity.
Defined.

(** ** Goals without candidate clauses *)


